(** * Leitura inclusiva: playback state and resume-position persistence

    A shallow embedding of the audiobook player's core:
    - [utils/file_utils.py]: the SQLite position store
      ([_get_connection], [save_position], [get_position]);
    - [core/audio_player.py]: the [AudioPlayer] adapter over python-vlc;
    - [gui/player_screen.py]: the [PlayerScreen] session controller
      ([load_audiobook], [skip_forward], [skip_backward],
      [update_progress], [hide]) and its buttons;
    - [utils/audio_utils.py]: the formatters and the progress percentage;
    - [core/audiobook.py] and [gui/library_screen.py]: the [Audiobook]
      record, the scan of the library and the selection.

    Conventions.
    - Python numbers holding seconds (floats, and the integer literal [0])
      are exact rationals [Q]; millisecond counts handed to and received
      from the engine are integers [Z].  Rounding of binary floating point
      is not modelled.
    - A Python call either returns or raises, and attribute writes made
      before a [raise] stay visible: a computation is a function from the
      mutable state to an outcome paired with the state it leaves behind.
    - The two polling threads ([_monitor_playback], [update_progress])
      and the Tk callbacks are interleaved with the commands one loop
      iteration, or one callback, at a time.  Where the moment at which
      the monitor thread stores its sample matters (the restore callback,
      [stop]), module [Threads] takes the monitor loop one statement at
      a time.
    - SQLite and libvlc are external.  SQLite is modelled by the one table
      the module uses plus a schedule saying which of the coming library
      calls fail; libvlc is an interface ([Vlc]) whose calls may raise. *)

From Stdlib Require Import ZArith QArith Qminmax Qround List String Bool Lia Lqa.
From Stdlib Require DecimalString DecimalZ.
Import ListNotations.

Local Open Scope Q_scope.

(** ** Outcomes of Python calls *)

Inductive exn : Type :=
| FileNotFoundError
| SqliteError
| VlcError
| ValueError
| Exception (msg : string).

Inductive result (A : Type) : Type :=
| Return (a : A)
| Raise (e : exn).

Arguments Return {A} a.
Arguments Raise {A} e.

Definition returned {A} (r : result A) : bool :=
  match r with Return _ => true | Raise _ => false end.

(** A computation over a mutable state [S]. *)
Definition comp (S A : Type) : Type := S -> result A * S.

Definition ret {S A} (a : A) : comp S A := fun s => (Return a, s).

Definition raise {S A} (e : exn) : comp S A := fun s => (Raise e, s).

Definition bind {S A B} (c : comp S A) (k : A -> comp S B) : comp S B :=
  fun s =>
    match c s with
    | (Return a, s') => k a s'
    | (Raise e, s') => (Raise e, s')
    end.

(** [try: c except Exception as e: h e] *)
Definition try_except {S A} (c : comp S A) (h : exn -> comp S A) : comp S A :=
  fun s =>
    match c s with
    | (Return a, s') => (Return a, s')
    | (Raise e, s') => h e s'
    end.

Definition gets {S A} (f : S -> A) : comp S A := fun s => (Return (f s), s).

Definition modify {S} (f : S -> S) : comp S unit := fun s => (Return tt, f s).

Declare Scope comp_scope.
Delimit Scope comp_scope with comp.
Notation "x <- c ;; k" := (bind c (fun x => k))
  (at level 61, c at next level, right associativity) : comp_scope.
Notation "c ;; k" := (bind c (fun _ => k))
  (at level 61, right associativity) : comp_scope.

(** ** utils/file_utils.py: the position store *)

Module FileUtils.

(** One row of [progress (audiobook_path TEXT PRIMARY KEY, position REAL)]. *)
Definition row : Type := (string * Q)%type.
Definition table : Type := list row.

(** The database file behind [DB_PATH].  [progress] is [None] until the
    table has been created.  [faults] is the schedule of the coming SQLite
    calls: the head says whether the next call raises; an empty schedule
    means that no further call fails. *)
Record database : Type := mkDatabase {
  progress : option table;
  faults : list bool
}.

Definition with_progress (t : option table) (db : database) : database :=
  mkDatabase t (faults db).

(** Every SQLite library call goes through here and consumes one entry of
    the schedule. *)
Definition sqlite_call : comp database unit :=
  fun db =>
    match faults db with
    | [] => (Return tt, db)
    | false :: fs => (Return tt, mkDatabase (progress db) fs)
    | true :: fs => (Raise SqliteError, mkDatabase (progress db) fs)
    end.

Definition key_is (k : string) (r : row) : bool := String.eqb (fst r) k.

(** [REPLACE INTO progress (audiobook_path, position) VALUES (k, p)]: the
    rows that conflict on the primary key are deleted, then the new row is
    inserted. *)
Definition sql_replace (k : string) (p : Q) (t : table) : table :=
  filter (fun r => negb (key_is k r)) t ++ [(k, p)].

(** [SELECT position FROM progress WHERE audiobook_path = k]. *)
Definition sql_select (k : string) (t : table) : list Q :=
  map snd (filter (key_is k) t).

Definition the_table (db : database) : table :=
  match progress db with Some t => t | None => [] end.

(** [sqlite3.connect(DB_PATH)] then [CREATE TABLE IF NOT EXISTS progress]. *)
Definition _get_connection : comp database unit :=
  (sqlite_call ;;
   sqlite_call ;;
   modify (fun db => with_progress (Some (the_table db)) db))%comp.

(** [with conn: conn.execute(REPLACE ...)]: the statement and the commit
    on leaving the [with] block are two calls; when either raises, nothing
    is written.  The function has no handler: the exception leaves it. *)
Definition save_position (audiobook_path : string) (position : Q)
  : comp database unit :=
  (_get_connection ;;
   sqlite_call ;;
   sqlite_call ;;
   modify (fun db =>
     with_progress (Some (sql_replace audiobook_path position (the_table db))) db))%comp.

(** [cur.execute(SELECT ...); row = cur.fetchone();
    return row[0] if row else 0.0].  No handler here either. *)
Definition get_position (audiobook_path : string) : comp database Q :=
  (_get_connection ;;
   sqlite_call ;;
   rows <- gets (fun db => sql_select audiobook_path (the_table db)) ;;
   ret (match rows with p :: _ => p | [] => 0 end))%comp.

(** The number of records stored under a key. *)
Definition records_for (k : string) (t : table) : nat :=
  List.length (filter (key_is k) t).

(** The primary-key constraint. *)
Definition unique_keys (t : table) : Prop :=
  forall k, (records_for k t <= 1)%nat.

(** No scheduled call fails. *)
Definition healthy (db : database) : Prop :=
  Forall (fun f => f = false) (faults db).

(** One of the next [n] calls fails. *)
Definition fails_within (n : nat) (db : database) : bool :=
  existsb (fun f => f) (firstn n (faults db)).

End FileUtils.

(** ** core/audio_player.py: the adapter over python-vlc *)

Module Core.

(** [vlc.State]. *)
Inductive State : Type :=
| NothingSpecial | Opening | Buffering | Playing | Paused | Stopped | Ended | Error.

Definition State_eqb (a b : State) : bool :=
  match a, b with
  | NothingSpecial, NothingSpecial | Opening, Opening | Buffering, Buffering
  | Playing, Playing | Paused, Paused | Stopped, Stopped | Ended, Ended
  | Error, Error => true
  | _, _ => false
  end.

(** What the adapter uses of the file system and of libvlc.  [E] is the
    state of that outside world; a call that raises leaves it as it was. *)
Class Vlc (E : Type) : Type := {
  path_exists : string -> E -> bool;
  (* vlc_instance.media_new(path); media_player.set_media(media) *)
  set_media : string -> E -> result E;
  (* media.parse(); media.get_duration(), in milliseconds *)
  media_get_duration : E -> result Z;
  mp_play : E -> result E;
  (* media_player.pause() toggles between pause and play *)
  mp_pause : E -> result E;
  mp_stop : E -> result E;
  set_time : Z -> E -> result E;
  get_time : E -> result Z;
  get_state : E -> result State;
  audio_set_volume : Z -> E -> result E;
  audio_get_volume : E -> result Z
}.

(** [int(x)] on a number: truncation towards zero. *)
Definition py_int (x : Q) : Z := Z.quot (Qnum x) (Zpos (Qden x)).

(** [ms / 1000] *)
Definition ms_to_seconds (ms : Z) : Q := inject_Z ms / 1000.

(** Python's [max(a, b)]: the first argument unless the second is greater. *)
Definition py_max (a b : Q) : Q := if Qlt_le_dec a b then b else a.

Section Adapter.

Context {E : Type} `{Vlc E}.

Record AudioPlayer : Type := mkAudioPlayer {
  file_path : option string;
  is_loaded : bool;
  is_playing : bool;
  is_paused : bool;
  current_position : Q;
  duration : Q;
  media_player : E;
  monitor_thread : bool;
  stop_monitoring : bool
}.

(** [AudioPlayer.__init__] around a freshly created media player. *)
Definition init (e : E) : AudioPlayer :=
  mkAudioPlayer None false false false 0 0 e false false.

Definition set_file_path v (s : AudioPlayer) :=
  mkAudioPlayer v (is_loaded s) (is_playing s) (is_paused s)
    (current_position s) (duration s) (media_player s) (monitor_thread s)
    (stop_monitoring s).
Definition set_is_loaded v (s : AudioPlayer) :=
  mkAudioPlayer (file_path s) v (is_playing s) (is_paused s)
    (current_position s) (duration s) (media_player s) (monitor_thread s)
    (stop_monitoring s).
Definition set_is_playing v (s : AudioPlayer) :=
  mkAudioPlayer (file_path s) (is_loaded s) v (is_paused s)
    (current_position s) (duration s) (media_player s) (monitor_thread s)
    (stop_monitoring s).
Definition set_is_paused v (s : AudioPlayer) :=
  mkAudioPlayer (file_path s) (is_loaded s) (is_playing s) v
    (current_position s) (duration s) (media_player s) (monitor_thread s)
    (stop_monitoring s).
Definition set_current_position v (s : AudioPlayer) :=
  mkAudioPlayer (file_path s) (is_loaded s) (is_playing s) (is_paused s)
    v (duration s) (media_player s) (monitor_thread s) (stop_monitoring s).
Definition set_duration v (s : AudioPlayer) :=
  mkAudioPlayer (file_path s) (is_loaded s) (is_playing s) (is_paused s)
    (current_position s) v (media_player s) (monitor_thread s)
    (stop_monitoring s).
Definition set_media_player v (s : AudioPlayer) :=
  mkAudioPlayer (file_path s) (is_loaded s) (is_playing s) (is_paused s)
    (current_position s) (duration s) v (monitor_thread s) (stop_monitoring s).
Definition set_monitor_thread v (s : AudioPlayer) :=
  mkAudioPlayer (file_path s) (is_loaded s) (is_playing s) (is_paused s)
    (current_position s) (duration s) (media_player s) v (stop_monitoring s).
Definition set_stop_monitoring v (s : AudioPlayer) :=
  mkAudioPlayer (file_path s) (is_loaded s) (is_playing s) (is_paused s)
    (current_position s) (duration s) (media_player s) (monitor_thread s) v.

(** A libvlc call that acts on the player. *)
Definition vlc (f : E -> result E) : comp AudioPlayer unit :=
  fun s =>
    match f (media_player s) with
    | Return e => (Return tt, set_media_player e s)
    | Raise x => (Raise x, s)
    end.

(** A libvlc query. *)
Definition ask {A} (f : E -> result A) : comp AudioPlayer A :=
  fun s => (f (media_player s), s).

Definition _get_duration : comp AudioPlayer Q :=
  try_except
    (duration_ms <- ask media_get_duration ;;
     ret (if (0 <? duration_ms)%Z then ms_to_seconds duration_ms else 0))%comp
    (fun _ => ret 0).

Definition load_file (path : string) : comp AudioPlayer unit :=
  try_except
    (modify (set_file_path (Some path)) ;;
     found <- gets (fun s => path_exists path (media_player s)) ;;
     (if found : bool then ret tt else raise FileNotFoundError) ;;
     vlc (set_media path) ;;
     d <- _get_duration ;;
     modify (set_duration d) ;;
     modify (set_is_loaded true) ;;
     modify (set_current_position 0))%comp
    (fun _ =>
       modify (set_is_loaded false) ;;
       raise (Exception "Failed to load audio file"))%comp.

Definition _start_monitoring : comp AudioPlayer unit :=
  (modify (set_stop_monitoring false) ;;
   modify (set_monitor_thread true))%comp.

Definition _stop_monitoring : comp AudioPlayer unit :=
  modify (set_stop_monitoring true).

Definition play : comp AudioPlayer unit :=
  fun s =>
    if negb (is_loaded s) then (Raise (Exception "No audio file loaded"), s)
    else
      try_except
        (vlc mp_play ;;
         modify (set_is_playing true) ;;
         modify (set_is_paused false) ;;
         _start_monitoring)%comp
        (fun _ => raise (Exception "Failed to play audio")) s.

Definition pause : comp AudioPlayer unit :=
  fun s =>
    if negb (is_loaded s) then (Return tt, s)
    else
      try_except
        (vlc mp_pause ;;
         modify (set_is_playing false) ;;
         modify (set_is_paused true))%comp
        (fun _ => ret tt) s.

Definition unpause : comp AudioPlayer unit :=
  fun s =>
    if negb (is_loaded s) then (Return tt, s)
    else
      try_except
        (vlc mp_pause ;;
         modify (set_is_playing true) ;;
         modify (set_is_paused false))%comp
        (fun _ => ret tt) s.

Definition stop : comp AudioPlayer unit :=
  fun s =>
    if negb (is_loaded s) then (Return tt, s)
    else
      try_except
        (vlc mp_stop ;;
         modify (set_is_playing false) ;;
         modify (set_is_paused false) ;;
         modify (set_current_position 0) ;;
         _stop_monitoring)%comp
        (fun _ => ret tt) s.

Definition set_position (position : Q) : comp AudioPlayer unit :=
  fun s =>
    if negb (is_loaded s) then (Return tt, s)
    else
      try_except
        (vlc (set_time (py_int (position * 1000))) ;;
         modify (set_current_position position))%comp
        (fun _ => ret tt) s.

(** [get_position] reads the engine, not the [current_position] field. *)
Definition get_position (s : AudioPlayer) : Q :=
  if negb (is_loaded s) then 0
  else
    match get_time (media_player s) with
    | Return position_ms =>
        if (0 <? position_ms)%Z then ms_to_seconds position_ms else 0
    | Raise _ => 0
    end.

Definition get_duration (s : AudioPlayer) : Q := duration s.

Definition set_volume (volume : Z) : comp AudioPlayer unit :=
  try_except
    (vlc (audio_set_volume (Z.max 0 (Z.min 100 volume))))
    (fun _ => ret tt).

Definition get_volume (s : AudioPlayer) : Z :=
  match audio_get_volume (media_player s) with
  | Return v => v
  | Raise _ => 50%Z
  end.

Definition is_file_loaded (s : AudioPlayer) : bool := is_loaded s.

(** One iteration of the [_monitor_playback] loop, run by a monitor
    thread between two commands.  The result says whether the loop goes on. *)
Definition _monitor_playback_step (s : AudioPlayer) : bool * AudioPlayer :=
  if negb (stop_monitoring s) && is_playing s then
    let s1 := set_current_position (get_position s) s in
    match get_state (media_player s1) with
    | Return st =>
        if State_eqb st Ended then (false, set_is_playing false s1)
        else (true, s1)
    | Raise _ => (false, s1)
    end
  else (false, s).

End Adapter.

Arguments AudioPlayer E : clear implicits.

End Core.

(** ** gui/player_screen.py: the session controller *)

Module Gui.

(** What [root.after] can be asked to run. *)
Inductive callback : Type :=
| restore_bookmark
    (* the lambda of [load_audiobook] *)
| update_progress_ui (current_pos duration progress : Q)
| on_audio_finished.

Section Screen.

Context {E : Type} `{Core.Vlc E}.

(** [Path(...).stem], from pathlib. *)
Variable stem : string -> string.

(** A [PlayerScreen], together with the database file that the functions
    of [file_utils] open on every call ([DB]) and the callbacks handed to
    [root.after] and not run yet, with their delays in milliseconds. *)
Record PlayerScreen : Type := mkPlayerScreen {
  audiobook_path : string;
  audio_player : Core.AudioPlayer E;
  is_playing : bool;
  update_thread : bool;
  stop_update : bool;
  last_position : option Q;
  title_label : string;
  play_button : string;
  progress_var : Q;
  after_queue : list (Z * callback);
  DB : FileUtils.database
}.

Definition set_audio_player v (s : PlayerScreen) :=
  mkPlayerScreen (audiobook_path s) v (is_playing s) (update_thread s)
    (stop_update s) (last_position s) (title_label s) (play_button s)
    (progress_var s) (after_queue s) (DB s).
Definition set_is_playing v (s : PlayerScreen) :=
  mkPlayerScreen (audiobook_path s) (audio_player s) v (update_thread s)
    (stop_update s) (last_position s) (title_label s) (play_button s)
    (progress_var s) (after_queue s) (DB s).
Definition set_update_thread v (s : PlayerScreen) :=
  mkPlayerScreen (audiobook_path s) (audio_player s) (is_playing s) v
    (stop_update s) (last_position s) (title_label s) (play_button s)
    (progress_var s) (after_queue s) (DB s).
Definition set_stop_update v (s : PlayerScreen) :=
  mkPlayerScreen (audiobook_path s) (audio_player s) (is_playing s)
    (update_thread s) v (last_position s) (title_label s) (play_button s)
    (progress_var s) (after_queue s) (DB s).
Definition set_last_position v (s : PlayerScreen) :=
  mkPlayerScreen (audiobook_path s) (audio_player s) (is_playing s)
    (update_thread s) (stop_update s) v (title_label s) (play_button s)
    (progress_var s) (after_queue s) (DB s).
Definition set_title_label v (s : PlayerScreen) :=
  mkPlayerScreen (audiobook_path s) (audio_player s) (is_playing s)
    (update_thread s) (stop_update s) (last_position s) v (play_button s)
    (progress_var s) (after_queue s) (DB s).
Definition set_play_button v (s : PlayerScreen) :=
  mkPlayerScreen (audiobook_path s) (audio_player s) (is_playing s)
    (update_thread s) (stop_update s) (last_position s) (title_label s) v
    (progress_var s) (after_queue s) (DB s).
Definition set_progress_var v (s : PlayerScreen) :=
  mkPlayerScreen (audiobook_path s) (audio_player s) (is_playing s)
    (update_thread s) (stop_update s) (last_position s) (title_label s)
    (play_button s) v (after_queue s) (DB s).
Definition set_after_queue v (s : PlayerScreen) :=
  mkPlayerScreen (audiobook_path s) (audio_player s) (is_playing s)
    (update_thread s) (stop_update s) (last_position s) (title_label s)
    (play_button s) (progress_var s) v (DB s).
Definition set_DB v (s : PlayerScreen) :=
  mkPlayerScreen (audiobook_path s) (audio_player s) (is_playing s)
    (update_thread s) (stop_update s) (last_position s) (title_label s)
    (play_button s) (progress_var s) (after_queue s) v.

(** A method call on [self.audio_player]. *)
Definition player {A} (c : comp (Core.AudioPlayer E) A) : comp PlayerScreen A :=
  fun s => let (r, a) := c (audio_player s) in (r, set_audio_player a s).

(** A call of a [file_utils] function. *)
Definition store {A} (c : comp FileUtils.database A) : comp PlayerScreen A :=
  fun s => let (r, d) := c (DB s) in (r, set_DB d s).

(** [self.root.after(ms, f)] *)
Definition after (ms : Z) (f : callback) : comp PlayerScreen unit :=
  modify (fun s => set_after_queue (after_queue s ++ [(ms, f)]) s).

Definition when {S} (b : bool) (c : comp S unit) : comp S unit :=
  if b then c else ret tt.

(** The part of [__init__] before [load_audiobook], [create_widgets]
    included. *)
Definition init (path : string) (e : E) (db : FileUtils.database) : PlayerScreen :=
  mkPlayerScreen path (Core.init e) false false false None "" "OUVIR" 0 [] db.

Definition start_progress_update : comp PlayerScreen unit :=
  (modify (set_stop_update false) ;;
   modify (set_update_thread true))%comp.

Definition load_audiobook : comp PlayerScreen unit :=
  try_except
    (path <- gets audiobook_path ;;
     player (Core.load_file path) ;;
     p <- store (FileUtils.get_position path) ;;
     modify (set_last_position (Some p)) ;;
     modify (set_title_label (stem path)) ;;
     start_progress_update ;;
     when (if Qlt_le_dec 0 p then true else false)
       (player Core.play ;;
        modify (set_is_playing true) ;;
        after 500 restore_bookmark))%comp
    (fun _ => modify (set_title_label "Error loading audiobook")).

(** [PlayerScreen(root, app, audiobook_path)] *)
Definition enter (path : string) (e : E) (db : FileUtils.database) : PlayerScreen :=
  snd (load_audiobook (init path e db)).

(** The body of the lambda registered by [load_audiobook]; it reads
    [self.last_position] when it runs. *)
Definition run_restore_bookmark : comp PlayerScreen unit :=
  (saved <- gets last_position ;;
   match saved with
   | Some p =>
       player (Core.set_position p) ;;
       player Core.pause ;;
       modify (set_is_playing false) ;;
       modify (set_play_button "OUVIR")
   | None => raise (Exception "AttributeError")
   end)%comp.

Definition play_audio : comp PlayerScreen unit :=
  try_except
    (player Core.play ;;
     modify (set_is_playing true) ;;
     modify (set_play_button "PAUSAR"))%comp
    (fun _ => ret tt).

Definition pause_audio : comp PlayerScreen unit :=
  try_except
    (player Core.pause ;;
     modify (set_is_playing false) ;;
     modify (set_play_button "OUVIR"))%comp
    (fun _ => ret tt).

Definition toggle_play_pause : comp PlayerScreen unit :=
  fun s => if is_playing s then pause_audio s else play_audio s.

Definition stop_audio : comp PlayerScreen unit :=
  try_except
    (player Core.stop ;;
     modify (set_is_playing false) ;;
     modify (set_play_button "OUVIR") ;;
     modify (set_progress_var 0))%comp
    (fun _ => ret tt).

(** The value of [new_pos] in [skip_forward]. *)
Definition skip_forward_new_pos (current_pos duration : Q) : Q :=
  if Qle_bool duration (current_pos + 30)
  then Core.py_max (duration - 1) 0
  else current_pos + 30.

Definition skip_forward : comp PlayerScreen unit :=
  try_except
    (current_pos <- gets (fun s => Core.get_position (audio_player s)) ;;
     duration <- gets (fun s => Core.get_duration (audio_player s)) ;;
     player (Core.set_position (skip_forward_new_pos current_pos duration)))%comp
    (fun _ => ret tt).

(** The value of [new_pos] in [skip_backward]. *)
Definition skip_backward_new_pos (current_pos : Q) : Q :=
  Core.py_max (current_pos - 30) 0.

Definition skip_backward : comp PlayerScreen unit :=
  try_except
    (current_pos <- gets (fun s => Core.get_position (audio_player s)) ;;
     player (Core.set_position (skip_backward_new_pos current_pos)))%comp
    (fun _ => ret tt).

Definition on_progress_change (value : Q) : comp PlayerScreen unit :=
  try_except
    (loaded <- gets (fun s => Core.is_file_loaded (audio_player s)) ;;
     when loaded
       (duration <- gets (fun s => Core.get_duration (audio_player s)) ;;
        player (Core.set_position ((value / 100) * duration))))%comp
    (fun _ => ret tt).

(** One iteration of the polling loop of [update_progress] (the sleep
    apart), run by the update thread between two commands. *)
Definition update_progress_step : comp PlayerScreen unit :=
  fun s =>
    if stop_update s then (Return tt, s)
    else
      try_except
        (loaded <- gets (fun s => Core.is_file_loaded (audio_player s)) ;;
         when loaded
           (current_pos <- gets (fun s => Core.get_position (audio_player s)) ;;
            duration <- gets (fun s => Core.get_duration (audio_player s)) ;;
            when (if Qlt_le_dec 0 duration then true else false)
              (after 0 (update_progress_ui current_pos duration
                          ((current_pos / duration) * 100))) ;;
            playing <- gets is_playing ;;
            when (playing && Qle_bool duration current_pos)
              (after 0 on_audio_finished)))%comp
        (fun _ => ret tt) s.

(** The handlers behind the callbacks; the two time labels are left out. *)
Definition run_callback (f : callback) : comp PlayerScreen unit :=
  match f with
  | restore_bookmark => run_restore_bookmark
  | update_progress_ui _ _ progress => modify (set_progress_var progress)
  | on_audio_finished =>
      (modify (set_is_playing false) ;;
       modify (set_play_button "OUVIR"))%comp
  end.

(** The reports to the UI among pending callbacks. *)
Definition reports (q : list (Z * callback)) : list (Q * Q * Q) :=
  flat_map (fun c =>
    match snd c with
    | update_progress_ui cur dur prog => [(cur, dur, prog)]
    | _ => []
    end) q.

Definition hide : comp PlayerScreen unit :=
  (modify (set_stop_update true) ;;
   loaded <- gets (fun s => Core.is_file_loaded (audio_player s)) ;;
   when loaded
     (pos <- gets (fun s => Core.get_position (audio_player s)) ;;
      path <- gets audiobook_path ;;
      store (FileUtils.save_position path pos)) ;;
   player Core.stop)%comp.

End Screen.

Arguments PlayerScreen E : clear implicits.

End Gui.

(** ** Runs: what can happen to a player and to a screen *)

Module Run.

Section Commands.

Context {E : Type} `{Core.Vlc E}.

(** The calls a client can make on an [AudioPlayer], one iteration of a
    monitor thread, and the engine moving on by itself (time passing, the
    track ending). *)
Inductive command : Type :=
| Load (path : string)
| Play
| Pause
| Unpause
| Stop
| Seek (position : Q)
| Volume (volume : Z)
| Monitor
| Elapse (e : E).

Definition exec (c : command) : comp (Core.AudioPlayer E) unit :=
  match c with
  | Load path => Core.load_file path
  | Play => Core.play
  | Pause => Core.pause
  | Unpause => Core.unpause
  | Stop => Core.stop
  | Seek position => Core.set_position position
  | Volume volume => Core.set_volume volume
  | Monitor =>
      fun s =>
        if Core.monitor_thread s
        then (Return tt, snd (Core._monitor_playback_step s))
        else (Return tt, s)
  | Elapse e => modify (Core.set_media_player e)
  end.

Definition step (s : Core.AudioPlayer E) (c : command) : Core.AudioPlayer E :=
  snd (exec c s).

Definition run (cs : list command) (s : Core.AudioPlayer E) : Core.AudioPlayer E :=
  fold_left step cs s.

(** No [Load] of the run fails. *)
Fixpoint loads_succeed (cs : list command) (s : Core.AudioPlayer E) : bool :=
  match cs with
  | [] => true
  | c :: cs' =>
      match c with
      | Load _ => returned (fst (exec c s))
      | _ => true
      end && loads_succeed cs' (step s c)
  end.

(** When the duration is known, every [Seek] of the run asks for a
    position within it and every monitor iteration reads an engine time
    within it. *)
Definition bounded (x : Q) (s : Core.AudioPlayer E) : Prop :=
  0 < Core.duration s -> x <= Core.duration s.

Fixpoint within_duration (cs : list command) (s : Core.AudioPlayer E) : Prop :=
  match cs with
  | [] => True
  | c :: cs' =>
      match c with
      | Seek position => bounded position s
      | Monitor => bounded (Core.get_position s) s
      | _ => True
      end /\ within_duration cs' (step s c)
  end.

Definition position_bounded (s : Core.AudioPlayer E) : Prop :=
  bounded (Core.current_position s) s.

(** The two flags are not both set. *)
Definition exclusive (s : Core.AudioPlayer E) : Prop :=
  Core.is_playing s && Core.is_paused s = false.

(** An unloaded player has both flags clear. *)
Definition idle_when_unloaded (s : Core.AudioPlayer E) : Prop :=
  Core.is_loaded s = false ->
  Core.is_playing s = false /\ Core.is_paused s = false.

(** What happens to a screen in the background of the user's commands. *)
Inductive event : Type :=
| MonitorStep
| UpdateStep
| Dispatch (n : nat)
| EngineMoves (e : E).

Definition remove_nth {A} (n : nat) (l : list A) : list A :=
  firstn n l ++ skipn (S n) l.

Definition happen (s : Gui.PlayerScreen E) (ev : event) : Gui.PlayerScreen E :=
  match ev with
  | MonitorStep => snd (Gui.player (exec Monitor) s)
  | UpdateStep => snd (Gui.update_progress_step s)
  | Dispatch n =>
      match nth_error (Gui.after_queue s) n with
      | Some (_, f) =>
          snd (Gui.run_callback f
                 (Gui.set_after_queue (remove_nth n (Gui.after_queue s)) s))
      | None => s
      end
  | EngineMoves e => snd (Gui.player (exec (Elapse e)) s)
  end.

Definition background (evs : list event) (s : Gui.PlayerScreen E) : Gui.PlayerScreen E :=
  fold_left happen evs s.

(** An engine none of whose commands raises. *)
Definition obliging : Prop :=
  forall e : E,
    (forall path, returned (Core.set_media path e) = true) /\
    returned (Core.mp_play e) = true /\
    returned (Core.mp_pause e) = true /\
    returned (Core.mp_stop e) = true /\
    (forall ms, returned (Core.set_time ms e) = true).

End Commands.

Arguments command E : clear implicits.
Arguments event E : clear implicits.

End Run.

(** ** A simulated engine, for concrete runs *)

Module Sim.

(** The files on disk with their durations in milliseconds, the media set
    on the player, and the player's state, time and volume. *)
Record engine : Type := mkEngine {
  files : list (string * Z);
  media : option string;
  state : Core.State;
  time : Z;
  volume : Z
}.

Definition lookup (path : string) (fs : list (string * Z)) : option Z :=
  option_map snd (find (fun f => String.eqb (fst f) path) fs).

Definition toggle (st : Core.State) : Core.State :=
  match st with
  | Core.Playing => Core.Paused
  | Core.Paused => Core.Playing
  | other => other
  end.

#[global] Instance sim_vlc : Core.Vlc engine := {|
  Core.path_exists path e :=
    match lookup path (files e) with Some _ => true | None => false end;
  Core.set_media path e :=
    Return (mkEngine (files e) (Some path) (state e) (time e) (volume e));
  Core.media_get_duration e :=
    match media e with
    | Some path =>
        match lookup path (files e) with
        | Some ms => Return ms
        | None => Raise VlcError
        end
    | None => Raise VlcError
    end;
  Core.mp_play e :=
    Return (mkEngine (files e) (media e) Core.Playing (Z.max 0 (time e)) (volume e));
  Core.mp_pause e :=
    Return (mkEngine (files e) (media e) (toggle (state e)) (time e) (volume e));
  Core.mp_stop e :=
    Return (mkEngine (files e) (media e) Core.Stopped (-1) (volume e));
  Core.set_time ms e :=
    Return (mkEngine (files e) (media e) (state e) ms (volume e));
  Core.get_time e := Return (time e);
  Core.get_state e := Return (state e);
  Core.audio_set_volume v e :=
    Return (mkEngine (files e) (media e) (state e) (time e) v);
  Core.audio_get_volume e := Return (volume e)
|}.

(** A disk with one book of two minutes and one file whose duration the
    engine cannot tell; a player that has just been created. *)
Definition disk : list (string * Z) :=
  [("book.mp3"%string, 120000%Z); ("raw.mp3"%string, 0%Z)].

Definition fresh : engine := mkEngine disk None Core.NothingSpecial (-1) 100.

(** Pathlib's [stem], for the two files above. *)
Definition stem (path : string) : string :=
  if String.eqb path "book.mp3" then "book"
  else if String.eqb path "raw.mp3" then "raw" else path.

Definition empty_db : FileUtils.database := FileUtils.mkDatabase None [].

(** A short session on the two-minute book. *)
Definition two_minutes : list (Run.command engine) :=
  [Run.Load "book.mp3"; Run.Play; Run.Seek 60; Run.Monitor; Run.Pause].

(** The screen of the two-minute book, thirty seconds into it. *)
Definition listening : Gui.PlayerScreen engine :=
  Run.background
    [Run.EngineMoves (mkEngine disk (Some "book.mp3"%string) Core.Playing 30000 100)]
    (Gui.enter stem "book.mp3" fresh empty_db).

(** The screen of the file of unknown duration, just entered. *)
Definition unknown_length : Gui.PlayerScreen engine :=
  Gui.enter stem "raw.mp3" fresh empty_db.

(** What goes on behind a screen while its restore callback is pending. *)
Definition warm_up : list (Run.event engine) :=
  [Run.MonitorStep; Run.UpdateStep;
   Run.EngineMoves (mkEngine disk (Some "book.mp3"%string) Core.Playing 400 100);
   Run.MonitorStep; Run.Dispatch 1].

Definition saved (path : string) (p : Q) : FileUtils.database :=
  FileUtils.mkDatabase (Some [(path, p)]) [].


(** The screen of the two-minute book entered with a bookmark, when the
    engine has played to the end and the callbacks have not run yet. *)
Definition at_the_end : Gui.PlayerScreen engine :=
  Run.background
    [Run.EngineMoves (mkEngine disk (Some "book.mp3"%string) Core.Ended 120000 100)]
    (Gui.enter stem "book.mp3" fresh (saved "book.mp3" 45)).

End Sim.

(** ** An engine that refuses everything, for the error paths *)

Module Broken.

Inductive engine : Type := Unplugged.

#[global] Instance broken_vlc : Core.Vlc engine := {|
  Core.path_exists _ _ := true;
  Core.set_media _ _ := Raise VlcError;
  Core.media_get_duration _ := Raise VlcError;
  Core.mp_play _ := Raise VlcError;
  Core.mp_pause _ := Raise VlcError;
  Core.mp_stop _ := Raise VlcError;
  Core.set_time _ _ := Raise VlcError;
  Core.get_time _ := Raise VlcError;
  Core.get_state _ := Raise VlcError;
  Core.audio_set_volume _ _ := Raise VlcError;
  Core.audio_get_volume _ := Raise VlcError
|}.

(** A player that was loaded and playing when the engine broke down. *)
Definition stranded : Core.AudioPlayer engine :=
  Core.mkAudioPlayer (Some "book.mp3"%string) true true false 12 120
    Unplugged true false.

End Broken.

(** ** What the user does on a player screen *)

Module Session.

Section Actions.

Context {E : Type} `{Core.Vlc E}.

(** The buttons and the slider of the screen. *)
Inductive action : Type :=
| PlayAudio
| PauseAudio
| TogglePlayPause
| StopAudio
| SkipForward
| SkipBackward
| ProgressChange (value : Q).

Definition perform (a : action) : comp (Gui.PlayerScreen E) unit :=
  match a with
  | PlayAudio => Gui.play_audio
  | PauseAudio => Gui.pause_audio
  | TogglePlayPause => Gui.toggle_play_pause
  | StopAudio => Gui.stop_audio
  | SkipForward => Gui.skip_forward
  | SkipBackward => Gui.skip_backward
  | ProgressChange value => Gui.on_progress_change value
  end.

Definition act (s : Gui.PlayerScreen E) (a : action) : Gui.PlayerScreen E :=
  snd (perform a s).

(** A user action, or something happening in the background. *)
Inductive move : Type :=
| User (a : action)
| Behind (ev : Run.event E).

Definition advance (s : Gui.PlayerScreen E) (m : move) : Gui.PlayerScreen E :=
  match m with
  | User a => act s a
  | Behind ev => Run.happen s ev
  end.

Definition session (ms : list move) (s : Gui.PlayerScreen E) : Gui.PlayerScreen E :=
  fold_left advance ms s.

(** The screen's playing flag says what the adapter's says. *)
Definition in_sync (s : Gui.PlayerScreen E) : Prop :=
  Gui.is_playing s = Core.is_playing (Gui.audio_player s).

(** The flags agree, and an unloaded adapter is not playing. *)
Definition settled (s : Gui.PlayerScreen E) : Prop :=
  in_sync s /\
  (Core.is_loaded (Gui.audio_player s) = false ->
   Core.is_playing (Gui.audio_player s) = false).

End Actions.

Arguments action : clear implicits.
Arguments move E : clear implicits.

End Session.

(** ** The monitor thread, statement by statement *)

Module Threads.

Section Monitor.

Context {E : Type} `{Core.Vlc E}.

(** Where a monitor thread stands in the loop of [_monitor_playback]. *)
Inductive phase : Type :=
| AtTest
    (* before the test of the [while], asleep or not started *)
| Reading
    (* the test has passed; [self.get_position()] is not called yet *)
| Holding (sample : Q)
    (* [self.get_position()] has returned; the value is not stored yet *)
| Checking.
    (* [self.current_position] is stored; [get_state()] is not called yet *)

(** One statement of the monitor thread, or the engine moving on.  The
    adapter has no lock: these run between any two statements of the
    main thread.  The methods of the adapter read neither the current
    position nor the playing flag, the only fields the monitor writes, so
    a statement of the monitor that falls inside a method has the effect
    it has just before or just after it; ticks are placed between the
    calls of the main thread. *)
Inductive tick : Type :=
| Test
| Read
| Write
| Check
| Moves (e : E).

Definition tick_player (st : Core.AudioPlayer E * phase) (t : tick)
  : Core.AudioPlayer E * phase :=
  let (a, ph) := st in
  match t, ph with
  | Test, AtTest =>
      if Core.monitor_thread a
         && (negb (Core.stop_monitoring a) && Core.is_playing a)
      then (a, Reading)
      else (a, AtTest)
  | Read, Reading => (a, Holding (Core.get_position a))
  | Write, Holding sample => (Core.set_current_position sample a, Checking)
  | Check, Checking =>
      match Core.get_state (Core.media_player a) with
      | Return st =>
          if Core.State_eqb st Core.Ended
          then (Core.set_is_playing false a, AtTest)
          else (a, AtTest)
      | Raise _ => (a, AtTest)
      end
  | Moves e, _ => (Core.set_media_player e a, ph)
  | _, _ => (a, ph)
  end.

Definition ticks_player (ts : list tick) (st : Core.AudioPlayer E * phase)
  : Core.AudioPlayer E * phase :=
  fold_left tick_player ts st.

(** No [Write] among the ticks. *)
Definition no_write (ts : list tick) : bool :=
  forallb (fun t => match t with Write => false | _ => true end) ts.

(** A screen with the monitor thread of its player. *)
Definition threaded : Type := (Gui.PlayerScreen E * phase)%type.

Definition player_of (st : threaded) : Core.AudioPlayer E :=
  Gui.audio_player (fst st).

Definition engine_of (st : threaded) : E := Core.media_player (player_of st).

Definition tick_screen (st : threaded) (t : tick) : threaded :=
  let (a, ph) := tick_player (Gui.audio_player (fst st), snd st) t in
  (Gui.set_audio_player a (fst st), ph).

Definition ticks (ts : list tick) (st : threaded) : threaded :=
  fold_left tick_screen ts st.

(** What can happen around the main thread's callbacks: a statement of
    the monitor thread, an iteration of the poller, a callback run by Tk. *)
Inductive moment : Type :=
| Monitor (t : tick)
| Poll
| Deliver (n : nat).

Definition pass (st : threaded) (m : moment) : threaded :=
  match m with
  | Monitor t => tick_screen st t
  | Poll => (snd (Gui.update_progress_step (fst st)), snd st)
  | Deliver n => (Run.happen (fst st) (Run.Dispatch n), snd st)
  end.

Definition passes (ms : list moment) (st : threaded) : threaded :=
  fold_left pass ms st.

(** The lambda of [load_audiobook], cut after its first call:
    [self.audio_player.set_position(self.last_position)] ... *)
Definition restore_seek : comp (Gui.PlayerScreen E) unit :=
  (saved <- gets Gui.last_position ;;
   match saved with
   | Some p => Gui.player (Core.set_position p)
   | None => raise (Exception "AttributeError")
   end)%comp.

(** ... and [self.audio_player.pause()], [setattr(self, 'is_playing',
    False)], [self.play_button.config(text="OUVIR")]. *)
Definition restore_pause : comp (Gui.PlayerScreen E) unit :=
  (Gui.player Core.pause ;;
   modify (Gui.set_is_playing false) ;;
   modify (Gui.set_play_button "OUVIR"))%comp.

Definition on_main (c : comp (Gui.PlayerScreen E) unit) (st : threaded) : threaded :=
  (snd (c (fst st)), snd st).

(** The restore callback with the monitor thread and the engine running
    through it: [between] falls after the seek and before the pause. *)
Definition restore_amid (between : list tick) (st : threaded) : threaded :=
  on_main restore_pause (ticks between (on_main restore_seek st)).

(** [stop()] as the main thread runs it, then what the monitor thread
    still does, while [stop] waits in [join] and after. *)
Definition stop_amid (after : list tick) (st : Core.AudioPlayer E * phase)
  : Core.AudioPlayer E * phase :=
  ticks_player after (snd (Core.stop (fst st)), snd st).

(** An engine that reports the time it was last sought to and keeps its
    time when paused. *)
Definition keeps_time : Prop :=
  (forall ms (e e' : E), Core.set_time ms e = Return e' ->
                         Core.get_time e' = Return ms) /\
  (forall e e' : E, Core.mp_pause e = Return e' ->
                    Core.get_time e' = Core.get_time e).

End Monitor.

Arguments tick E : clear implicits.
Arguments moment E : clear implicits.
Arguments threaded E : clear implicits.

End Threads.

(** ** Concrete interleavings on the simulated engine *)

Module Races.

(** Half a second into playback. *)
Definition half_a_second : Sim.engine :=
  Sim.mkEngine Sim.disk (Some "book.mp3"%string) Core.Playing 480 100.

(** The monitor thread passes its test, the engine plays on, and the
    thread reads the position: the sample is in hand, not stored. *)
Definition sample_in_hand : list (Threads.moment Sim.engine) :=
  [Threads.Monitor Threads.Test;
   Threads.Monitor (Threads.Moves half_a_second);
   Threads.Monitor Threads.Read].

(** The screen of the two-minute book with a bookmark at [p], when the
    restore callback is about to run with a sample in hand. *)
Definition before_restore (p : Q) : Threads.threaded Sim.engine :=
  Threads.passes sample_in_hand
    (Gui.enter Sim.stem "book.mp3" Sim.fresh (Sim.saved "book.mp3" p),
     Threads.AtTest).

(** The same with a quiet monitor thread. *)
Definition quiet_before_restore (p : Q) : Threads.threaded Sim.engine :=
  (Gui.enter Sim.stem "book.mp3" Sim.fresh (Sim.saved "book.mp3" p),
   Threads.AtTest).

(** A player in the middle of the book, with a sample in hand. *)
Definition caught_by_stop : Core.AudioPlayer Sim.engine * Threads.phase :=
  Threads.ticks_player [Threads.Test; Threads.Moves half_a_second; Threads.Read]
    (Run.run [Run.Load "book.mp3"; Run.Play] (Core.init Sim.fresh), Threads.AtTest).

End Races.

(** ** Python numbers and format fields *)

Module Py.

(** [a // b] on floats. *)
Definition floordiv (a b : Q) : Q := inject_Z (Qfloor (a / b)).

(** [a % b] on floats, for a positive [b]. *)
Definition mod_ (a b : Q) : Q := a - b * inject_Z (Qfloor (a / b)).

(** Python's [min(a, b)]: the first argument unless the second is smaller. *)
Definition min (a b : Q) : Q := if Qlt_le_dec b a then b else a.

(** [str(n)] for an integer. *)
Definition str (n : Z) : string := DecimalString.NilZero.string_of_int (Z.to_int n).

(** [f"{n:02d}"]: at least two characters, filled with zeros after the
    sign; a negative number has its two characters already. *)
Definition zero_padded (n : Z) : string :=
  (if (String.length (str n) <? 2)%nat then "0" ++ str n else str n)%string.

(** [f"{n:2}"]: at least two characters, spaces on the left. *)
Definition space_padded (n : Z) : string :=
  (if (String.length (str n) <? 2)%nat then " " ++ str n else str n)%string.

(** Rounding to the nearest integer, ties to the even one. *)
Definition round_half_even (x : Q) : Z :=
  let f := Qfloor x in
  match Qcompare (x - inject_Z f) (1 # 2) with
  | Lt => f
  | Gt => (f + 1)%Z
  | Eq => if Z.even f then f else (f + 1)%Z
  end.

(** The digits of [f"{x:.1f}"] for [x >= 0]. *)
Definition one_decimal (x : Q) : string :=
  let tenths := round_half_even (x * 10) in
  (str (tenths / 10) ++ "." ++ str (tenths mod 10))%string.

(** [f"{x:.1f}"] *)
Definition fixed1 (x : Q) : string :=
  if Qlt_le_dec x 0 then ("-" ++ one_decimal (- x))%string else one_decimal x.

End Py.

(** ** utils/audio_utils.py *)

Module AudioUtils.

Definition format_duration (seconds : Q) : string :=
  if Qle_bool seconds 0 then "00:00"%string
  else
    let hours := Core.py_int (Py.floordiv seconds 3600) in
    let minutes := Core.py_int (Py.floordiv (Py.mod_ seconds 3600) 60) in
    let seconds := Core.py_int (Py.mod_ seconds 60) in
    if (0 <? hours)%Z then
      (Py.zero_padded hours ++ ":" ++ Py.zero_padded minutes ++ ":"
       ++ Py.zero_padded seconds)%string
    else (Py.zero_padded minutes ++ ":" ++ Py.zero_padded seconds)%string.

Definition calculate_playback_time (current_position total_duration : Q) : string :=
  if Qle_bool total_duration 0 then "00:00 / 00:00"%string
  else (format_duration current_position ++ " / "
        ++ format_duration total_duration)%string.

Definition calculate_progress_percentage (current_position total_duration : Q) : Q :=
  if Qle_bool total_duration 0 then 0
  else
    let progress := (current_position / total_duration) * 100 in
    Core.py_max 0 (Py.min 100 progress).

(** The loop of [format_file_size] over the units left. *)
Fixpoint size_in (units : list string) (size_bytes : Q) : string :=
  match units with
  | [] => (Py.fixed1 size_bytes ++ " TB")%string
  | unit :: rest =>
      if Qlt_le_dec size_bytes 1024
      then (Py.fixed1 size_bytes ++ " " ++ unit)%string
      else size_in rest (size_bytes / 1024)
  end.

Definition format_file_size (size_bytes : Q) : string :=
  size_in ["B"; "KB"; "MB"; "GB"]%string size_bytes.

(** [get_supported_formats], a set. *)
Definition get_supported_formats : list string :=
  [".mp3"; ".wav"; ".ogg"; ".flac"; ".m4a"; ".aac"]%string.

Definition member (x : string) (set : list string) : bool :=
  existsb (String.eqb x) set.

Section Paths.

(** [Path(p).suffix] and [str.lower]. *)
Variables (suffix : string -> string) (lower : string -> string).

Definition is_supported_audio_format (file_path : string) : bool :=
  member (lower (suffix file_path))
    [".mp3"; ".wav"; ".ogg"; ".flac"; ".m4a"; ".aac"]%string.

End Paths.

End AudioUtils.

(** ** PlayerScreen.format_time *)

Module Labels.

(** [format_time] is called with [get_position()] and the duration,
    which are never negative.  On a negative float Python's [%] rounds
    the remainder it shifts by 60, which exact rationals do not follow:
    the model gives a text for the times that are not negative only. *)
Definition format_time (seconds : Q) : option string :=
  if Qle_bool 0 seconds then
    let minutes := Core.py_int (Py.floordiv seconds 60) in
    let seconds := Core.py_int (Py.mod_ seconds 60) in
    Some (Py.space_padded minutes ++ ":" ++ Py.space_padded seconds)%string
  else None.

End Labels.

(** ** core/audiobook.py and gui/library_screen.py *)

Module Library.

Section Files.

(** The file system and pathlib: [Path.exists], [Path.is_file],
    [Path.stem], [Path.name], [Path.suffix], [stat().st_size], and
    [str.lower]. *)
Variables (exists_ is_file : string -> bool).
Variables (stem name suffix lower : string -> string).
Variable st_size : string -> Z.

(** [file_utils.validate_audio_file] *)
Definition validate_audio_file (file_path : string) : bool :=
  if negb (exists_ file_path) then false
  else AudioUtils.member (lower (suffix file_path))
         [".mp3"; ".wav"; ".ogg"; ".flac"; ".m4a"; ".aac"]%string.

(** An [Audiobook]; the modification date is left out. *)
Record Audiobook : Type := mkAudiobook {
  file_path : string;
  title : string;
  filename : string;
  file_size : Z;
  file_extension : string
}.

Definition _validate_format (file_extension : string) : result unit :=
  if negb (AudioUtils.member file_extension
             [".mp3"; ".wav"; ".ogg"; ".flac"; ".m4a"; ".aac"]%string)
  then Raise ValueError
  else Return tt.

(** [Audiobook(file_path)]: [__init__] and [_load_metadata]. *)
Definition new_Audiobook (path : string) : result Audiobook :=
  if negb (exists_ path) then Raise FileNotFoundError
  else
    let book := mkAudiobook path (stem path) (name path) (st_size path)
                  (lower (suffix path)) in
    match _validate_format (file_extension book) with
    | Return _ => Return book
    | Raise e => Raise e
    end.

(** [Audiobook.formatted_duration], as a function of [self.duration]. *)
Definition formatted_duration (duration : Q) : string :=
  if Qeq_bool duration 0 then "Unknown"%string
  else
    let hours := Core.py_int (Py.floordiv duration 3600) in
    let minutes := Core.py_int (Py.floordiv (Py.mod_ duration 3600) 60) in
    let seconds := Core.py_int (Py.mod_ duration 60) in
    if (0 <? hours)%Z then
      (Py.zero_padded hours ++ ":" ++ Py.zero_padded minutes ++ ":"
       ++ Py.zero_padded seconds)%string
    else (Py.zero_padded minutes ++ ":" ++ Py.zero_padded seconds)%string.

(** The library screen: the books, the selected one, the rows of the
    listbox, and whether the play button is enabled. *)
Record LibraryScreen : Type := mkLibraryScreen {
  audiobooks : list Audiobook;
  selected_audiobook : option Audiobook;
  audiobooks_listbox : list string;
  play_button_enabled : bool
}.

(** The extensions that the scan of [load_audiobooks] looks for. *)
Definition audio_extensions : list string :=
  [".mp3"; ".wav"; ".ogg"; ".flac"; ".m4a"]%string.

(** The body of the scanning loop for one file. *)
Definition scan_one (s : LibraryScreen) (path : string) : LibraryScreen :=
  if is_file path && AudioUtils.member (lower (suffix path)) audio_extensions then
    match new_Audiobook path with
    | Return audiobook =>
        mkLibraryScreen (audiobooks s ++ [audiobook]) (selected_audiobook s)
          (audiobooks_listbox s ++ [title audiobook]) (play_button_enabled s)
    | Raise _ => s
    end
  else s.

(** [load_audiobooks]; [dir_exists] says whether [data/audiobooks] is
    there and [found] is what [rglob] yields. *)
Definition load_audiobooks (dir_exists : bool) (found : list string)
    (s : LibraryScreen) : LibraryScreen :=
  let s0 := mkLibraryScreen [] (selected_audiobook s) [] (play_button_enabled s) in
  if negb dir_exists then s0
  else
    let s1 := fold_left scan_one found s0 in
    match audiobooks s1 with
    | [] =>
        mkLibraryScreen (audiobooks s1) (selected_audiobook s1)
          (audiobooks_listbox s1 ++ ["No audiobooks found"%string])
          (play_button_enabled s1)
    | _ :: _ => s1
    end.

(** [__init__] with [create_widgets]. *)
Definition new_LibraryScreen (dir_exists : bool) (found : list string) : LibraryScreen :=
  load_audiobooks dir_exists found (mkLibraryScreen [] None [] false).

(** [on_audiobook_select]; [selection] is what [curselection] returns. *)
Definition on_audiobook_select (selection : list nat) (s : LibraryScreen)
  : LibraryScreen :=
  match selection with
  | [] => s
  | index :: _ =>
      match nth_error (audiobooks s) index with
      | Some audiobook =>
          mkLibraryScreen (audiobooks s) (Some audiobook) (audiobooks_listbox s) true
      | None => s
      end
  end.

Definition refresh_library (dir_exists : bool) (found : list string)
    (s : LibraryScreen) : LibraryScreen :=
  let s1 := load_audiobooks dir_exists found s in
  mkLibraryScreen (audiobooks s1) None (audiobooks_listbox s1) false.

(** [play_selected_audiobook]: the path handed to [show_player_screen],
    if any. *)
Definition play_selected_audiobook (s : LibraryScreen) : option string :=
  match selected_audiobook s with
  | Some audiobook => Some (file_path audiobook)
  | None => None
  end.

(** What happens to a library screen once it is built. *)
Inductive library_event : Type :=
| Refresh (dir_exists : bool) (found : list string)
| Select (selection : list nat).

Definition library_step (s : LibraryScreen) (ev : library_event) : LibraryScreen :=
  match ev with
  | Refresh dir_exists found => refresh_library dir_exists found s
  | Select selection => on_audiobook_select selection s
  end.

(** The files that the scan keeps: regular files with one of the
    extensions, still there when the [Audiobook] is built. *)
Definition listed (path : string) : bool :=
  is_file path && AudioUtils.member (lower (suffix path)) audio_extensions
  && exists_ path.

(** The [Audiobook] built for a file. *)
Definition book_of (path : string) : Audiobook :=
  mkAudiobook path (stem path) (name path) (st_size path) (lower (suffix path)).

(** The selection is a listed book, and the button is on with it. *)
Definition coherent (s : LibraryScreen) : Prop :=
  (forall b, selected_audiobook s = Some b -> In b (audiobooks s)) /\
  (play_button_enabled s = true <-> selected_audiobook s <> None).

End Files.

End Library.

(** ** A small shelf of files, for concrete runs of the library *)

Module Shelf.

(** Path, stem and lower-cased suffix of what is in [data/audiobooks]. *)
Definition files : list (string * (string * string)) :=
  [("data/audiobooks/emma.mp3", ("emma", ".mp3"));
   ("data/audiobooks/notes.txt", ("notes", ".txt"));
   ("data/audiobooks/ulysses.aac", ("ulysses", ".aac"));
   ("data/audiobooks/walden.FLAC", ("walden", ".flac"))]%string.

Definition paths : list string := map fst files.

Definition entry (path : string) : option (string * string) :=
  option_map snd (find (fun f => String.eqb (fst f) path) files).

Definition exists_ (path : string) : bool :=
  match entry path with Some _ => true | None => false end.

Definition stem (path : string) : string :=
  match entry path with Some (st, _) => st | None => path end.

(** The suffix, already lower-cased. *)
Definition suffix (path : string) : string :=
  match entry path with Some (_, sf) => sf | None => ""%string end.

Definition lower (s : string) : string := s.

Definition st_size (path : string) : Z := 1024.

Definition opened : Library.LibraryScreen :=
  Library.new_LibraryScreen exists_ exists_ stem stem suffix lower st_size true paths.

End Shelf.

(** * The position store *)

Module FileUtilsFacts.
Import FileUtils.

Lemma healthy_inv (t : option table) (f : bool) (fs : list bool) :
  healthy (mkDatabase t (f :: fs)) -> f = false /\ healthy (mkDatabase t fs).
Proof.
  unfold healthy; simpl. intros Hh. inversion Hh; subst. split; [reflexivity | assumption].
Qed.

Lemma healthy_skipn (t u : option table) (fs : list bool) (n : nat) :
  healthy (mkDatabase t fs) -> healthy (mkDatabase u (skipn n fs)).
Proof.
  unfold healthy; simpl. revert fs.
  induction n as [|n IH]; intros fs Hh; [exact Hh|].
  destruct fs as [|f fs]; [exact Hh|]. simpl. apply IH. now inversion Hh.
Qed.

(** Look at the next entry of the fault schedule. *)
Ltac peel Hh fs :=
  destruct fs as [|? fs];
  [| apply healthy_inv in Hh; destruct Hh as [-> Hh]].

Ltac unfold_get :=
  cbv [get_position _get_connection sqlite_call bind modify gets ret
       with_progress faults progress the_table].

(** On a healthy database a save returns and leaves the replaced table. *)
Lemma save_position_healthy (k : string) (p : Q) (db : database) :
  healthy db ->
  save_position k p db =
    (Return tt,
     mkDatabase (Some (sql_replace k p (the_table db))) (skipn 4 (faults db))).
Proof.
  destruct db as [t fs]. intros Hh.
  do 4 (peel Hh fs; [reflexivity|]). reflexivity.
Qed.

(** On a healthy database a read returns the first selected row, or zero. *)
Lemma get_position_healthy (k : string) (db : database) :
  healthy db ->
  get_position k db =
    (Return (hd 0 (sql_select k (the_table db))),
     mkDatabase (Some (the_table db)) (skipn 3 (faults db))).
Proof.
  destruct db as [t fs]. intros Hh.
  assert (Hhd : forall l : list Q, match l with p :: _ => p | [] => 0 end = hd 0 l)
    by (intros [|? ?]; reflexivity).
  do 3 (peel Hh fs; [unfold_get; rewrite Hhd; reflexivity|]).
  unfold_get; rewrite Hhd; reflexivity.
Qed.

Lemma filter_key_replace_same (k : string) (p : Q) (t : table) :
  filter (key_is k) (sql_replace k p t) = [(k, p)].
Proof.
  assert (Hnew : key_is k (k, p) = true) by (unfold key_is; simpl; apply String.eqb_refl).
  unfold sql_replace. rewrite filter_app. cbn [filter]. rewrite Hnew.
  replace (filter (key_is k) (filter (fun r => negb (key_is k r)) t)) with (@nil row);
    [reflexivity|].
  induction t as [|r t IH]; simpl; [reflexivity|].
  destruct (key_is k r) eqn:Hk; simpl; [exact IH|]. now rewrite Hk.
Qed.

Lemma filter_key_replace_other (k k' : string) (p : Q) (t : table) :
  k' <> k ->
  filter (key_is k') (sql_replace k p t) = filter (key_is k') t.
Proof.
  intros Hne.
  assert (Hnew : key_is k' (k, p) = false)
    by (unfold key_is; simpl; apply String.eqb_neq; congruence).
  unfold sql_replace. rewrite filter_app. cbn [filter]. rewrite Hnew, app_nil_r.
  induction t as [|r t IH]; simpl; [reflexivity|].
  destruct (key_is k r) eqn:Hk; simpl.
  - rewrite IH. unfold key_is in *.
    apply String.eqb_eq in Hk.
    destruct (String.eqb_spec (fst r) k') as [Heq|_]; [congruence | reflexivity].
  - now rewrite IH.
Qed.

Lemma replace_unique (k : string) (p : Q) (t : table) :
  unique_keys t -> unique_keys (sql_replace k p t).
Proof.
  intros Hu k'. unfold records_for.
  destruct (string_dec k' k) as [->|Hne].
  - now rewrite filter_key_replace_same.
  - rewrite filter_key_replace_other by assumption. apply Hu.
Qed.

Lemma select_absent (k : string) (t : table) :
  (forall p, ~ In (k, p) t) -> sql_select k t = [].
Proof.
  unfold sql_select. induction t as [|[k' p'] t IH]; intros Habs; [reflexivity|].
  simpl. unfold key_is at 1. simpl.
  destruct (String.eqb_spec k' k) as [->|_].
  - exfalso. apply (Habs p'). now left.
  - apply IH. intros p Hin. apply (Habs p). now right.
Qed.

(** What a save does under any fault schedule. *)
Lemma save_position_outcome (k : string) (p : Q) (db : database) :
  fst (save_position k p db) =
    (if fails_within 4 db then Raise SqliteError else Return tt) /\
  the_table (snd (save_position k p db)) =
    (if fails_within 4 db then the_table db else sql_replace k p (the_table db)).
Proof.
  destruct db as [t fs].
  destruct fs as [|[] [|[] [|[] [|[] fs]]]]; split; reflexivity.
Qed.

(** What a read does under any fault schedule. *)
Lemma get_position_outcome (k : string) (db : database) :
  fst (get_position k db) =
    (if fails_within 3 db then Raise SqliteError
     else Return (hd 0 (sql_select k (the_table db)))) /\
  the_table (snd (get_position k db)) = the_table db.
Proof.
  assert (Hhd : forall l : list Q, match l with p :: _ => p | [] => 0 end = hd 0 l)
    by (intros [|? ?]; reflexivity).
  destruct db as [t fs].
  destruct fs as [|[] [|[] [|[] fs]]]; split;
    unfold_get; cbn [fst snd firstn existsb fails_within faults orb];
    rewrite ?Hhd; reflexivity.
Qed.

(** Whatever calls fail, a sequence of saves on a database that had no
    table yet never stores two records under one key. *)
Lemma saves_keep_unique_keys (saves : list (string * Q)) (db : database) :
  unique_keys (the_table db) ->
  unique_keys
    (the_table (fold_left (fun d kp => snd (save_position (fst kp) (snd kp) d))
                  saves db)).
Proof.
  revert db. induction saves as [|[k p] saves IH]; intros db Hu; [exact Hu|].
  cbn [fold_left fst snd]. apply IH.
  destruct (save_position_outcome k p db) as [_ ->].
  destruct (fails_within 4 db); [exact Hu | now apply replace_unique].
Qed.

(** C1. Round trip with last write wins: on a store whose calls succeed,
    whatever it held before, [save_position k p1] returns and a following
    [get_position k] returns [p1]; a second [save_position k p2] makes
    [get_position k] return [p2]; the key then has exactly one record,
    and a table with at most one record per key stays so. *)
Theorem save_get_round_trip (db : database) (k : string) (p1 p2 : Q) :
  healthy db ->
  let db1 := snd (save_position k p1 db) in
  let db2 := snd (save_position k p2 db1) in
  fst (save_position k p1 db) = Return tt /\
  fst (get_position k db1) = Return p1 /\
  fst (save_position k p2 db1) = Return tt /\
  fst (get_position k db2) = Return p2 /\
  records_for k (the_table db1) = 1%nat /\
  records_for k (the_table db2) = 1%nat /\
  (unique_keys (the_table db) ->
   unique_keys (the_table db1) /\ unique_keys (the_table db2)).
Proof.
  destruct db as [t fs]. intros Hh db1 db2.
  set (t0 := the_table (mkDatabase t fs)).
  set (t1 := sql_replace k p1 t0).
  set (t2 := sql_replace k p2 t1).
  assert (E1 : save_position k p1 (mkDatabase t fs)
               = (Return tt, mkDatabase (Some t1) (skipn 4 fs)))
    by exact (save_position_healthy k p1 _ Hh).
  assert (Hh1 : healthy (mkDatabase (Some t1) (skipn 4 fs)))
    by exact (healthy_skipn t _ fs 4 Hh).
  assert (E2 : save_position k p2 (mkDatabase (Some t1) (skipn 4 fs))
               = (Return tt, mkDatabase (Some t2) (skipn 4 (skipn 4 fs))))
    by exact (save_position_healthy k p2 _ Hh1).
  assert (Hh2 : healthy (mkDatabase (Some t2) (skipn 4 (skipn 4 fs))))
    by exact (healthy_skipn (Some t1) _ _ 4 Hh1).
  subst db2 db1. rewrite E1. cbn [fst snd]. rewrite E2. cbn [fst snd].
  rewrite (get_position_healthy k _ Hh1), (get_position_healthy k _ Hh2).
  cbn [fst snd faults the_table progress].
  unfold sql_select, records_for. subst t2 t1.
  rewrite !filter_key_replace_same. cbn [map snd hd List.length].
  repeat split; try reflexivity; intros; now repeat apply replace_unique.
Qed.

Lemma save_get_round_trip_witness :
  healthy (Sim.saved "book.mp3" 12) /\
  fst (get_position "book.mp3"
         (snd (save_position "book.mp3" 45 (Sim.saved "book.mp3" 12)))) = Return 45.
Proof.
  assert (Hh : healthy (Sim.saved "book.mp3" 12)) by constructor.
  split; [exact Hh|].
  exact (proj1 (proj2 (save_get_round_trip (Sim.saved "book.mp3" 12)
                         "book.mp3" 45 7 Hh))).
Defined.

(** C9. Missing key: on a store whose calls succeed, [get_position k]
    returns zero when the table holds no record for [k]. *)
Theorem get_position_unknown_key (db : database) (k : string) :
  healthy db ->
  (forall p, ~ In (k, p) (the_table db)) ->
  fst (get_position k db) = Return 0.
Proof.
  intros Hh Habs. rewrite (get_position_healthy k db Hh). cbn [fst].
  now rewrite (select_absent k _ Habs).
Qed.

Lemma get_position_unknown_key_witness :
  healthy (Sim.saved "book.mp3" 45) /\
  (forall p, ~ In ("raw.mp3"%string, p) (the_table (Sim.saved "book.mp3" 45))) /\
  fst (get_position "raw.mp3" (Sim.saved "book.mp3" 45)) = Return 0.
Proof.
  assert (Hh : healthy (Sim.saved "book.mp3" 45)) by constructor.
  assert (Habs : forall p,
             ~ In ("raw.mp3"%string, p) (the_table (Sim.saved "book.mp3" 45))).
  { intros p [Heq|[]]. discriminate Heq. }
  split; [exact Hh|]. split; [exact Habs|].
  exact (get_position_unknown_key (Sim.saved "book.mp3" 45) "raw.mp3" Hh Habs).
Defined.

(** C2, as the code has it. Neither [save_position] nor [get_position]
    has a handler: when one of the SQLite calls it makes fails (four for
    a save, three for a read), the exception reaches the caller; a failed
    save leaves the stored records as they were, and a read returns the
    stored position or zero only when none of its calls fails. *)
Theorem store_errors_reach_caller (db : database) (k : string) (p : Q) :
  fst (save_position k p db) =
    (if fails_within 4 db then Raise SqliteError else Return tt) /\
  the_table (snd (save_position k p db)) =
    (if fails_within 4 db then the_table db else sql_replace k p (the_table db)) /\
  fst (get_position k db) =
    (if fails_within 3 db then Raise SqliteError
     else Return (hd 0 (sql_select k (the_table db)))).
Proof.
  destruct (save_position_outcome k p db) as [Hs Ht].
  destruct (get_position_outcome k db) as [Hg _].
  auto.
Qed.

(** C2 fails as stated: with a database that cannot be opened, the save
    raises instead of returning, and the read raises instead of
    returning zero. *)
Lemma store_errors_not_swallowed :
  let db := mkDatabase (Some [("book.mp3"%string, 45)]) [true] in
  returned (fst (save_position "book.mp3" 50 db)) = false /\
  fst (get_position "book.mp3" db) = Raise SqliteError /\
  fst (get_position "book.mp3" db) <> Return 0.
Proof.
  cbv zeta. repeat split; try reflexivity. discriminate.
Qed.

End FileUtilsFacts.

(** * The adapter *)

Module CoreFacts.
Import Core.

(** Open the computation monad and split on every test and on every
    outcome of an engine call. *)
Ltac open_comp :=
  cbv [load_file play pause unpause stop set_position set_volume
       _get_duration _start_monitoring _stop_monitoring
       try_except bind ret raise gets modify vlc ask
       set_file_path set_is_loaded set_is_playing set_is_paused
       set_current_position set_duration set_media_player
       set_monitor_thread set_stop_monitoring
       file_path is_loaded is_playing is_paused current_position duration
       media_player monitor_thread stop_monitoring negb fst snd].

Ltac split_cases :=
  repeat (cbv beta iota;
    match goal with
    | |- context [match ?x with _ => _ end] =>
        lazymatch x with
        | context [match _ with _ => _ end] => fail
        | _ => destruct x eqn:?
        end
    end);
  cbv beta iota.

Section Adapter.

Context {E : Type} `{Vlc E}.

Lemma ms_to_seconds_pos (ms : Z) : (0 < ms)%Z -> 0 < ms_to_seconds ms.
Proof.
  intros Hms. unfold ms_to_seconds, Qlt, Qdiv, Qmult, Qinv, inject_Z. simpl. lia.
Qed.

Lemma py_max_is_Qmax (a b : Q) : py_max a b == Qmax a b.
Proof.
  unfold py_max. destruct (Qlt_le_dec a b) as [Hlt|Hle].
  - symmetry. apply Q.max_r. now apply Qlt_le_weak.
  - symmetry. now apply Q.max_l.
Qed.

(** C10. [get_position] never returns a negative value: it is zero when
    no file is loaded, zero when the engine reports a time that is not
    positive (the [-1] of a player that has not started included), zero
    when the query raises, and the positive time in seconds otherwise. *)
Theorem get_position_nonnegative (s : AudioPlayer E) :
  0 <= get_position s /\
  (is_loaded s = false -> get_position s = 0) /\
  (forall ms, get_time (media_player s) = Return ms ->
     (ms <= 0)%Z -> get_position s = 0) /\
  (forall x, get_time (media_player s) = Raise x -> get_position s = 0).
Proof.
  unfold get_position. repeat split.
  - destruct (is_loaded s); simpl; [|apply Qle_refl].
    destruct (get_time (media_player s)) as [ms|x]; [|apply Qle_refl].
    destruct (Z.ltb_spec 0 ms) as [Hpos|_]; [|apply Qle_refl].
    apply Qlt_le_weak. now apply ms_to_seconds_pos.
  - intros ->. reflexivity.
  - intros ms -> Hms. destruct (is_loaded s); simpl; [|reflexivity].
    destruct (Z.ltb_spec 0 ms) as [Hpos|_]; [lia | reflexivity].
  - intros x ->. destruct (is_loaded s); reflexivity.
Qed.

(** C4, as the code has it. With no file loaded, [play] raises and
    changes nothing; [pause], [unpause], [stop] and [set_position] return
    without error and change nothing; [set_volume] has no such test: it
    returns without error, leaves the adapter's own fields alone, and
    hands the volume, clamped to 0..100, to the engine. *)
Theorem unloaded_commands (s : AudioPlayer E) (x : Q) (v : Z) :
  is_loaded s = false ->
  play s = (Raise (Exception "No audio file loaded"), s) /\
  pause s = (Return tt, s) /\
  unpause s = (Return tt, s) /\
  stop s = (Return tt, s) /\
  set_position x s = (Return tt, s) /\
  set_volume v s =
    (Return tt,
     match audio_set_volume (Z.max 0 (Z.min 100 v)) (media_player s) with
     | Return e => set_media_player e s
     | Raise _ => s
     end).
Proof.
  intros Hl. unfold play, pause, unpause, stop, set_position. rewrite Hl. simpl.
  repeat split.
  unfold set_volume, try_except, vlc, ret.
  destruct (audio_set_volume _ _); reflexivity.
Qed.

End Adapter.

Lemma unloaded_commands_witness :
  is_loaded (init Sim.fresh) = false /\
  pause (init Sim.fresh) = (Return tt, init Sim.fresh).
Proof.
  split; [reflexivity|].
  exact (proj1 (proj2 (unloaded_commands (init Sim.fresh) 5 30 eq_refl))).
Defined.

(** C4 fails as stated for the volume: on a player with no file loaded,
    [set_volume 30] reaches the engine and the volume goes from 100 to 30. *)
Lemma unloaded_set_volume_not_noop :
  let s := init Sim.fresh in
  is_loaded s = false /\
  get_volume s = 100%Z /\
  get_volume (snd (set_volume 30 s)) = 30%Z /\
  snd (set_volume 30 s) <> s.
Proof.
  cbv zeta. repeat split. intros Heq.
  apply (f_equal get_volume) in Heq. discriminate Heq.
Qed.

End CoreFacts.

(** * Invariants of the adapter over all runs *)

Module RunFacts.
Import Core Run.
Import CoreFacts.

Section Runs.

Context {E : Type} `{Vlc E}.

Local Abbreviation player := (AudioPlayer E).

(** A load either succeeds, at position zero with a duration that is not
    negative, or raises and marks the player unloaded; it never touches
    the two flags. *)
Lemma load_file_effect (path : string) (s : player) :
  let s' := snd (load_file path s) in
  is_playing s' = is_playing s /\ is_paused s' = is_paused s /\
  ((fst (load_file path s) = Return tt /\ is_loaded s' = true /\
    current_position s' = 0 /\ 0 <= duration s') \/
   (returned (fst (load_file path s)) = false /\ is_loaded s' = false /\
    current_position s' = current_position s /\ duration s' = duration s)).
Proof.
  destruct s as [fp ld pl pa cp du mp mt sm]. open_comp.
  split_cases; cbn; (split; [reflexivity|]); (split; [reflexivity|]);
    first [ solve [right; repeat split; reflexivity]
          | left; repeat split; try reflexivity; try apply Qle_refl ].
  apply Qlt_le_weak, ms_to_seconds_pos.
  match goal with Hx : (0 <? _)%Z = true |- _ => apply Z.ltb_lt in Hx; exact Hx end.
Qed.

(** What one step does to the flags. *)
Lemma step_flags (s : player) (c : command E) :
  let s' := step s c in
  (is_playing s' = is_playing s /\ is_paused s' = is_paused s) \/
  (is_loaded s = true /\ is_playing s' = true /\ is_paused s' = false) \/
  (is_loaded s = true /\ is_playing s' = false /\ is_paused s' = true) \/
  (is_playing s' = false /\ is_paused s' = false) \/
  (is_playing s' = false /\ is_paused s' = is_paused s).
Proof.
  destruct c; unfold step, exec.
  - left. destruct (load_file_effect path s) as (Hp & Hq & _). now split.
  - destruct s as [fp ld pl pa cp du mp mt sm]. open_comp. split_cases; cbn; auto 10.
  - destruct s as [fp ld pl pa cp du mp mt sm]. open_comp. split_cases; cbn; auto 10.
  - destruct s as [fp ld pl pa cp du mp mt sm]. open_comp. split_cases; cbn; auto 10.
  - destruct s as [fp ld pl pa cp du mp mt sm]. open_comp. split_cases; cbn; auto 10.
  - destruct s as [fp ld pl pa cp du mp mt sm]. open_comp. split_cases; cbn; auto 10.
  - destruct s as [fp ld pl pa cp du mp mt sm]. open_comp. split_cases; cbn; auto 10.
  - destruct s as [fp ld pl pa cp du mp mt sm].
    cbv [_monitor_playback_step andb]. open_comp. split_cases; cbn; auto 10.
  - left. split; reflexivity.
Qed.

(** Only a load changes the loaded flag. *)
Lemma step_loaded (s : player) (c : command E) :
  (forall path, c <> Load path) -> is_loaded (step s c) = is_loaded s.
Proof.
  intros Hc. destruct c; unfold step, exec;
    try (exfalso; eapply Hc; reflexivity);
    destruct s as [fp ld pl pa cp du mp mt sm].
  1-6: open_comp; split_cases; reflexivity.
  - cbv [_monitor_playback_step andb]. open_comp. split_cases; reflexivity.
  - reflexivity.
Qed.

Lemma step_exclusive (s : player) (c : command E) :
  exclusive s -> exclusive (step s c).
Proof.
  unfold exclusive. intros Hx.
  destruct (step_flags s c) as [[-> ->]|[(_ & -> & ->)|[(_ & -> & ->)|[[-> ->]|[-> _]]]]];
    auto.
Qed.

Lemma run_exclusive (cs : list (command E)) (s : player) :
  exclusive s -> exclusive (run cs s).
Proof.
  revert s. induction cs as [|c cs IH]; intros s Hx; [exact Hx|].
  apply IH. now apply step_exclusive.
Qed.

Lemma run_idle_when_unloaded (cs : list (command E)) (s : player) :
  loads_succeed cs s = true ->
  idle_when_unloaded s -> idle_when_unloaded (run cs s).
Proof.
  revert s. induction cs as [|c cs IH]; intros s Hok Hidle; [exact Hidle|].
  cbn [loads_succeed] in Hok. apply andb_prop in Hok. destruct Hok as [Hc Hcs].
  apply IH; [exact Hcs|]. cbn [run fold_left]. clear IH Hcs.
  intros Hun.
  assert (Hcases : (exists path, c = Load path) \/ (forall path, c <> Load path)).
  { destruct c; try (right; discriminate). left. now exists path. }
  destruct Hcases as [[path ->]|Hother].
  - exfalso. unfold step, exec in *.
    destruct (load_file_effect path s) as (_ & _ & [(_ & Hl & _)|(Hr & _)]);
      congruence.
  - rewrite (step_loaded s c Hother) in Hun.
    destruct (Hidle Hun) as [Hp Hq].
    destruct (step_flags s c) as [[-> ->]|[(Hl & _)|[(Hl & _)|[[-> ->]|[-> ->]]]]];
      auto; congruence.
Qed.

(** What one step other than a load does to position and duration. *)
Lemma step_position (s : player) (c : command E) :
  (forall path, c <> Load path) ->
  let s' := step s c in
  duration s' = duration s /\
  (current_position s' = current_position s \/
   current_position s' = 0 \/
   c = Seek (current_position s') \/
   (c = Monitor /\ current_position s' = get_position s)).
Proof.
  intros Hc. destruct c; unfold step, exec;
    try (exfalso; eapply Hc; reflexivity);
    destruct s as [fp ld pl pa cp du mp mt sm].
  1-6: open_comp; split_cases; cbn; auto 10.
  - cbv [_monitor_playback_step andb]. open_comp. split_cases; cbn; auto 10.
  - cbn. auto.
Qed.

Lemma step_position_bounded (s : player) (c : command E) :
  within_duration [c] s -> position_bounded s -> position_bounded (step s c).
Proof.
  unfold position_bounded, bounded. cbn [within_duration]. intros [Hc _] Hb.
  assert (Hcases : (exists path, c = Load path) \/ (forall path, c <> Load path)).
  { destruct c; try (right; discriminate). left. now exists path. }
  destruct Hcases as [[path ->]|Hother].
  - unfold step, exec.
    destruct (load_file_effect path s)
      as (_ & _ & [(_ & _ & -> & Hd)|(_ & _ & -> & ->)]); [|exact Hb].
    intros _. exact Hd.
  - destruct (step_position s c Hother) as [-> Hpos].
    intros Hd.
    destruct Hpos as [->|[->|[Hseek|[Hmon ->]]]].
    + now apply Hb.
    + now apply Qlt_le_weak.
    + rewrite Hseek in Hc. unfold bounded in Hc. now apply Hc.
    + rewrite Hmon in Hc. unfold bounded in Hc. now apply Hc.
Qed.

Lemma run_position_bounded (cs : list (command E)) (s : player) :
  within_duration cs s -> position_bounded s -> position_bounded (run cs s).
Proof.
  revert s. induction cs as [|c cs IH]; intros s Hw Hb; [exact Hb|].
  destruct Hw as [Hc Hcs]. apply IH; [exact Hcs|].
  apply step_position_bounded; [|exact Hb]. cbn [within_duration]. now split.
Qed.

(** A seek on a loaded player whose engine accepts it stores the target
    as it is. *)
Lemma set_position_stores_target (s : player) (x : Q) :
  is_loaded s = true ->
  returned (set_time (py_int (x * 1000)) (media_player s)) = true ->
  fst (set_position x s) = Return tt /\
  current_position (snd (set_position x s)) = x /\
  duration (snd (set_position x s)) = duration s /\
  is_loaded (snd (set_position x s)) = true /\
  is_playing (snd (set_position x s)) = is_playing s /\
  is_paused (snd (set_position x s)) = is_paused s.
Proof.
  destruct s as [fp ld pl pa cp du mp mt sm]. cbn [is_loaded media_player].
  intros -> Hok. open_comp.
  destruct (set_time (py_int (x * 1000)) mp); [|discriminate Hok].
  cbn. repeat split.
Qed.

(** C5, as the code has it. In every state reached from a new player by
    loads, plays, pauses, unpauses, stops, seeks, volume changes, monitor
    iterations and moves of the engine, the playing and paused flags are
    not both set; both are clear in a new player, after a stop that the
    engine accepts on a loaded player, and in every unloaded state of a
    run none of whose loads failed. *)
Theorem playing_paused_exclusive (e : E) (cs : list (command E)) :
  let s := run cs (init e) in
  is_playing s && is_paused s = false /\
  (is_playing (init e) = false /\ is_paused (init e) = false) /\
  (is_loaded s = true -> returned (mp_stop (media_player s)) = true ->
   is_playing (step s Stop) = false /\ is_paused (step s Stop) = false) /\
  (loads_succeed cs (init e) = true -> is_loaded s = false ->
   is_playing s = false /\ is_paused s = false).
Proof.
  cbv zeta. split; [|split; [|split]].
  - apply run_exclusive. reflexivity.
  - split; reflexivity.
  - generalize (run cs (init e)). intros s Hl Hok.
    destruct s as [fp ld pl pa cp du mp mt sm]. cbn [is_loaded media_player] in *.
    subst ld. unfold step, exec. open_comp.
    destruct (mp_stop mp); [|discriminate Hok]. cbn. split; reflexivity.
  - intros Hok. apply (run_idle_when_unloaded cs (init e) Hok).
    intros _. split; reflexivity.
Qed.


End Runs.

Lemma playing_paused_exclusive_witness :
  let s := run Sim.two_minutes (init Sim.fresh) in
  is_playing s && is_paused s = false /\
  is_playing (step s Stop) = false /\ is_paused (step s Stop) = false.
Proof.
  cbv zeta.
  destruct (playing_paused_exclusive Sim.fresh Sim.two_minutes) as (Hx & _ & Hs & _).
  split; [exact Hx|]. apply Hs; reflexivity.
Defined.

(** C5 fails as stated for unloaded sessions: a load that fails while a
    book is playing marks the player unloaded and leaves the playing flag
    set. *)
Lemma failed_load_keeps_playing_flag :
  let s := run [Load "book.mp3"; Play; Load "missing.mp3"] (init Sim.fresh) in
  is_loaded s = false /\ is_playing s = true.
Proof.
  cbv zeta. split; reflexivity.
Qed.

Lemma two_minutes_within_duration : within_duration Sim.two_minutes (init Sim.fresh).
Proof.
  cbn [Sim.two_minutes within_duration]. unfold bounded.
  repeat split; vm_compute; intros _ Hgt; discriminate Hgt.
Defined.



End RunFacts.

(** * The session controller *)

Module GuiFacts.
Import Core Run Gui.
Import CoreFacts RunFacts.

Ltac open_gui :=
  cbv [skip_forward skip_backward update_progress_step run_callback
       run_restore_bookmark load_audiobook start_progress_update
       player store after when
       try_except bind ret raise gets modify
       set_audio_player Gui.set_is_playing set_update_thread set_stop_update
       set_last_position set_title_label set_play_button set_progress_var
       set_after_queue set_DB
       audiobook_path audio_player Gui.is_playing update_thread stop_update
       last_position title_label play_button progress_var after_queue DB
       is_file_loaded get_duration fst snd].

Section Screen.

Context {E : Type} `{Vlc E}.

Variable stem : string -> string.

Local Abbreviation screen := (PlayerScreen E).

(** The skip targets, in the words of the specification. *)
Lemma skip_forward_new_pos_spec (p d : Q) :
  skip_forward_new_pos p d ==
    (if Qlt_le_dec (p + 30) d then p + 30 else Qmax (d - 1) 0).
Proof.
  unfold skip_forward_new_pos.
  destruct (Qle_bool d (p + 30)) eqn:Hb; destruct (Qlt_le_dec (p + 30) d) as [Hlt|Hle].
  - apply Qle_bool_iff in Hb. exfalso. apply (Qlt_not_le _ _ Hlt Hb).
  - apply py_max_is_Qmax.
  - reflexivity.
  - apply Qle_bool_iff in Hle. congruence.
Qed.

Lemma skip_forward_new_pos_at_duration (p d : Q) :
  0 <= p -> 0 <= d -> (skip_forward_new_pos p d == d <-> d == 0).
Proof.
  intros Hp Hd. unfold skip_forward_new_pos, py_max.
  destruct (Qle_bool d (p + 30)) eqn:Hb.
  - apply Qle_bool_iff in Hb.
    destruct (Qlt_le_dec (d - 1) 0) as [Hlt|Hle]; split; intros Heq; lra.
  - assert (Hlt : ~ d <= p + 30)
      by (intros Hle; apply Qle_bool_iff in Hle; congruence).
    split; intros Heq; lra.
Qed.

(** A skip on a loaded player whose engine accepts the seek. *)
Lemma skip_forward_effect (s : screen) :
  is_loaded (audio_player s) = true ->
  (forall ms, returned (set_time ms (media_player (audio_player s))) = true) ->
  current_position (audio_player (snd (skip_forward s))) =
    skip_forward_new_pos (get_position (audio_player s)) (duration (audio_player s)).
Proof.
  intros Hl Hok.
  destruct (set_position_stores_target (audio_player s)
              (skip_forward_new_pos (get_position (audio_player s))
                 (duration (audio_player s))) Hl (Hok _)) as (Hr & Hp & _).
  destruct s as [path a pl ut su lp tl pb pv q db]. cbn [audio_player] in *.
  open_gui. destruct (set_position _ a) as [r a']. cbn [fst snd] in *.
  subst r. exact Hp.
Qed.

Lemma skip_backward_effect (s : screen) :
  is_loaded (audio_player s) = true ->
  (forall ms, returned (set_time ms (media_player (audio_player s))) = true) ->
  current_position (audio_player (snd (skip_backward s))) =
    skip_backward_new_pos (get_position (audio_player s)).
Proof.
  intros Hl Hok.
  destruct (set_position_stores_target (audio_player s)
              (skip_backward_new_pos (get_position (audio_player s))) Hl (Hok _))
    as (Hr & Hp & _).
  destruct s as [path a pl ut su lp tl pb pv q db]. cbn [audio_player] in *.
  open_gui. destruct (set_position _ a) as [r a']. cbn [fst snd] in *.
  subst r. exact Hp.
Qed.


(** The seeks that the screen computes stay within the duration. *)
Lemma skip_targets_within_duration (p d : Q) :
  0 <= d ->
  skip_forward_new_pos p d <= d /\
  (p <= d -> skip_backward_new_pos p <= d).
Proof.
  intros Hd. unfold skip_forward_new_pos, skip_backward_new_pos, py_max. split.
  - destruct (Qle_bool d (p + 30)) eqn:Hb.
    + destruct (Qlt_le_dec (d - 1) 0); lra.
    + assert (Hlt : ~ d <= p + 30)
        by (intros Hle; apply Qle_bool_iff in Hle; congruence).
      lra.
  - intros Hp. destruct (Qlt_le_dec (p - 30) 0); lra.
Qed.

Lemma reports_app (q r : list (Z * callback)) :
  reports (q ++ r) = reports q ++ reports r.
Proof. unfold reports. apply flat_map_app. Qed.

(** C8, as the code has it. An iteration of the poller on a loaded
    player reports [(current, duration, current / duration * 100)] to the
    UI when the duration is positive, and reports nothing when the
    duration is unknown or no file is loaded; for [current = 30] and
    [duration = 120] the progress is [25]. *)
Theorem progress_report (s : screen) :
  stop_update s = false ->
  let cur := get_position (audio_player s) in
  let dur := get_duration (audio_player s) in
  let s' := snd (update_progress_step s) in
  (is_loaded (audio_player s) = true -> 0 < dur ->
   reports (after_queue s') =
     reports (after_queue s) ++ [(cur, dur, (cur / dur) * 100)]) /\
  (~ 0 < dur -> reports (after_queue s') = reports (after_queue s)) /\
  (is_loaded (audio_player s) = false ->
   reports (after_queue s') = reports (after_queue s)) /\
  (cur == 30 -> dur == 120 -> (cur / dur) * 100 == 25).
Proof.
  intros Hrun cur dur s'. subst cur dur s'.
  destruct s as [path a pl ut su lp tl pb pv q db].
  cbn [stop_update audio_player after_queue] in *. subst su.
  repeat split.
  - intros Hl Hpos. open_gui. rewrite Hl. cbv beta iota.
    destruct (Qlt_le_dec 0 (duration a)) as [_|Hle];
      [|exfalso; apply (Qlt_not_le _ _ Hpos Hle)].
    cbv beta iota.
    destruct (pl && Qle_bool (duration a) (get_position a)); cbv beta iota;
      rewrite ?reports_app; cbn [reports flat_map snd app];
      rewrite ?app_nil_r; reflexivity.
  - intros Hnot. open_gui. destruct (is_loaded a); cbv beta iota; [|reflexivity].
    destruct (Qlt_le_dec 0 (duration a)) as [Hpos|_]; [contradiction|].
    cbv beta iota.
    destruct (pl && Qle_bool (duration a) (get_position a)); cbv beta iota;
      rewrite ?reports_app; cbn [reports flat_map snd app];
      rewrite ?app_nil_r; reflexivity.
  - intros Hl. open_gui. rewrite Hl. reflexivity.
  - intros Hc Hd. unfold get_duration in Hd. rewrite Hc, Hd. reflexivity.
Qed.

(** A load on a new player, when the file is there and the engine takes
    the media. *)
Lemma load_file_new_player (path : string) (e e1 : E) :
  path_exists path e = true ->
  set_media path e = Return e1 ->
  exists d,
    load_file path (Core.init e) =
      (Return tt, mkAudioPlayer (Some path) true false false 0 d e1 false false).
Proof.
  intros Hpe Hsm. unfold Core.init. open_comp. rewrite Hpe. cbv beta iota.
  rewrite Hsm. cbv beta iota.
  destruct (media_get_duration e1) as [ms|x]; cbv beta iota; eexists; reflexivity.
Qed.

Lemma returned_inv {A} (r : result A) :
  returned r = true -> exists a, r = Return a.
Proof. destruct r as [a|x]; [now exists a | discriminate]. Qed.

(** Entering a track with a bookmark: the track is loaded and playing,
    and the restore callback is pending. *)
Lemma enter_with_bookmark (path : string) (e : E) (db : FileUtils.database) (p : Q) :
  obliging ->
  path_exists path e = true ->
  fst (FileUtils.get_position path db) = Return p ->
  0 < p ->
  let s1 := enter stem path e db in
  is_loaded (audio_player s1) = true /\
  Core.is_playing (audio_player s1) = true /\
  last_position s1 = Some p /\
  after_queue s1 = [(500%Z, restore_bookmark)].
Proof.
  intros Hob Hpe Hget Hpos.
  destruct (returned_inv _ (proj1 (Hob e) path)) as [e1 Hsm].
  destruct (load_file_new_player path e e1 Hpe Hsm) as [d Hload].
  destruct (returned_inv _ (proj1 (proj2 (Hob e1)))) as [e2 Hplay].
  unfold enter, Gui.init. open_gui. rewrite Hload. cbv beta iota.
  destruct (FileUtils.get_position path db) as [r db']. cbn [fst] in Hget. subst r.
  cbv beta iota.
  destruct (Qlt_le_dec 0 p) as [_|Hle]; [|exfalso; apply (Qlt_not_le _ _ Hpos Hle)].
  cbv beta iota. open_comp. rewrite Hplay. cbn. repeat split.
Qed.

(** Entering a track without a bookmark: the track is loaded, nothing
    plays, and no callback is pending. *)
Lemma enter_without_bookmark (path : string) (e : E) (db : FileUtils.database) (p : Q) :
  obliging ->
  path_exists path e = true ->
  fst (FileUtils.get_position path db) = Return p ->
  ~ 0 < p ->
  let s1 := enter stem path e db in
  is_loaded (audio_player s1) = true /\
  Core.is_playing (audio_player s1) = false /\
  is_paused (audio_player s1) = false /\
  Gui.is_playing s1 = false /\
  after_queue s1 = [] /\
  set_media path e = Return (media_player (audio_player s1)).
Proof.
  intros Hob Hpe Hget Hpos.
  destruct (returned_inv _ (proj1 (Hob e) path)) as [e1 Hsm].
  destruct (load_file_new_player path e e1 Hpe Hsm) as [d Hload].
  unfold enter, Gui.init. open_gui. rewrite Hload. cbv beta iota.
  destruct (FileUtils.get_position path db) as [r db']. cbn [fst] in Hget. subst r.
  cbv beta iota.
  destruct (Qlt_le_dec 0 p) as [Hlt|_]; [contradiction|].
  cbn. rewrite Hsm. repeat split.
Qed.

(** A call on the player made through the screen. *)
Lemma player_exec (c : command E) (s : screen) :
  audio_player (snd (player (exec c) s)) = step (audio_player s) c /\
  last_position (snd (player (exec c) s)) = last_position s.
Proof.
  unfold player, step. destruct (exec c (audio_player s)) as [r a].
  split; reflexivity.
Qed.

Lemma pause_effect (a : AudioPlayer E) :
  is_loaded a = true ->
  returned (mp_pause (media_player a)) = true ->
  Core.is_playing (snd (pause a)) = false /\
  is_paused (snd (pause a)) = true /\
  current_position (snd (pause a)) = current_position a.
Proof.
  destruct a as [fp ld pl pa cp du mp mt sm]. cbn [is_loaded media_player].
  intros -> Hok. open_comp. destruct (mp_pause mp); [|discriminate Hok].
  cbn. repeat split.
Qed.

(** The restore callback on a loaded player with a bookmark. *)
Lemma restore_effect (s : screen) (p : Q) :
  obliging ->
  is_loaded (audio_player s) = true ->
  last_position s = Some p ->
  let s' := snd (run_callback restore_bookmark s) in
  is_loaded (audio_player s') = true /\
  last_position s' = Some p /\
  current_position (audio_player s') = p /\
  Core.is_playing (audio_player s') = false /\
  is_paused (audio_player s') = true /\
  Gui.is_playing s' = false.
Proof.
  intros Hob Hl Hlp.
  destruct s as [path a pl ut su lp tl pb pv q db].
  cbn [audio_player last_position] in *. subst lp.
  destruct (set_position_stores_target a p Hl
              (proj2 (proj2 (proj2 (proj2 (Hob (media_player a))))) _))
    as (Hr & Hp & _ & Hl1 & _).
  open_gui. destruct (set_position p a) as [r a1]. cbn [fst snd] in *. subst r.
  cbv beta iota.
  destruct (pause_effect a1 Hl1 (proj1 (proj2 (proj2 (Hob (media_player a1))))))
    as (Hpl & Hpa & Hcp).
  assert (Hl2 : is_loaded (snd (pause a1)) = true)
    by (rewrite <- Hl1; apply (step_loaded a1 Pause); discriminate).
  assert (Hr2 : fst (pause a1) = Return tt).
  { clear - Hl1. destruct a1 as [fp ld pl' pa cp du mp mt sm].
    cbn [is_loaded] in Hl1. subst ld. open_comp. destruct (mp_pause mp); reflexivity. }
  destruct (pause a1) as [r a2]. cbn [fst snd] in *. subst r. cbv beta iota.
  rewrite Hcp, Hp. repeat split; assumption.
Qed.

(** Background events keep the track loaded and the bookmark in place. *)
Lemma happen_keeps_bookmark (s : screen) (ev : event E) (p : Q) :
  obliging ->
  is_loaded (audio_player s) = true /\ last_position s = Some p ->
  is_loaded (audio_player (happen s ev)) = true /\
  last_position (happen s ev) = Some p.
Proof.
  intros Hob [Hl Hlp]. destruct ev as [| |n|e]; unfold happen.
  - destruct (player_exec Monitor s) as [-> ->].
    rewrite step_loaded by discriminate. now split.
  - destruct s as [path a pl ut su lp tl pb pv q db].
    cbn [audio_player last_position] in *.
    open_gui. destruct su; cbv beta iota; [now split|]. rewrite Hl. cbv beta iota.
    destruct (Qlt_le_dec 0 (duration a));
      destruct (pl && Qle_bool (duration a) (get_position a)); now split.
  - destruct (nth_error (after_queue s) n) as [[ms f]|]; [|now split].
    set (s0 := set_after_queue _ s).
    assert (Hl0 : is_loaded (audio_player s0) = true) by exact Hl.
    assert (Hlp0 : last_position s0 = Some p) by exact Hlp.
    clearbody s0. destruct f as [|cur dur prog|].
    + destruct (restore_effect s0 p Hob Hl0 Hlp0) as (H1 & H2 & _). now split.
    + now split.
    + now split.
  - destruct (player_exec (Elapse e) s) as [-> ->].
    rewrite step_loaded by discriminate. now split.
Qed.

Lemma background_keeps_bookmark (evs : list (event E)) (s : screen) (p : Q) :
  obliging ->
  is_loaded (audio_player s) = true /\ last_position s = Some p ->
  is_loaded (audio_player (background evs s)) = true /\
  last_position (background evs s) = Some p.
Proof.
  intros Hob. revert s. induction evs as [|ev evs IH]; intros s Hs; [exact Hs|].
  apply IH. now apply happen_keeps_bookmark.
Qed.

End Screen.

Lemma sim_obliging : @obliging Sim.engine _.
Proof.
  intros e. split; [intros path; reflexivity|]. repeat split.
Defined.



(** What the callers of the store do with its exceptions: [hide] lets a
    failed save through and does not get to stop the player;
    [load_audiobook] catches a failed read and shows an error title. *)
Lemma hide_lets_store_failure_through :
  let s := set_DB (FileUtils.mkDatabase None [true]) Sim.listening in
  fst (hide s) = Raise SqliteError /\
  is_loaded (audio_player (snd (hide s))) = true /\
  Core.is_playing (audio_player (snd (hide s))) =
    Core.is_playing (audio_player s).
Proof.
  cbv zeta. repeat split.
Qed.

Lemma load_audiobook_catches_store_failure :
  let s := enter Sim.stem "book.mp3" Sim.fresh (FileUtils.mkDatabase None [true]) in
  title_label s = "Error loading audiobook"%string /\
  last_position s = None /\
  after_queue s = [].
Proof.
  cbv zeta. repeat split.
Qed.

Lemma progress_report_witness :
  stop_update Sim.listening = false /\
  exists cur dur progress,
    reports (after_queue (snd (update_progress_step Sim.listening))) =
      [(cur, dur, progress)] /\
    progress == 25.
Proof.
  split; [reflexivity|].
  destruct (progress_report Sim.listening eq_refl) as (Hrep & _ & _ & Hval).
  eexists _, _, _. split.
  - apply (Hrep eq_refl eq_refl).
  - apply Hval; reflexivity.
Defined.

(** C8 fails as stated when the duration is unknown: the poller then
    reports nothing to the UI, not a progress of zero. *)
Lemma unknown_duration_not_reported :
  let s := Sim.unknown_length in
  is_loaded (audio_player s) = true /\
  stop_update s = false /\
  get_duration (audio_player s) = 0 /\
  after_queue s = [] /\
  after_queue (snd (update_progress_step s)) = [].
Proof.
  cbv zeta. repeat split.
Qed.

End GuiFacts.

(** * More on the adapter *)

Module AdapterFacts.
Import Core Run.
Import CoreFacts RunFacts.

Section Adapter.

Context {E : Type} `{Vlc E}.

Local Abbreviation player := (AudioPlayer E).

Lemma get_position_not_negative (s : player) : 0 <= get_position s.
Proof.
  unfold get_position. destruct (is_loaded s); simpl; [|apply Qle_refl].
  destruct (get_time (media_player s)) as [ms|x]; [|apply Qle_refl].
  destruct (Z.ltb_spec 0 ms) as [Hpos|_]; [|apply Qle_refl].
  apply Qlt_le_weak. now apply ms_to_seconds_pos.
Qed.

Lemma is_load_or_not (c : command E) :
  (exists path, c = Load path) \/ (forall path, c <> Load path).
Proof.
  destruct c; try (right; discriminate). left. now exists path.
Qed.

(** X1. The duration is never negative: in every state reached from a
    new player, whatever the engine reports for the media. *)
Theorem duration_never_negative (e : E) (cs : list (command E)) :
  0 <= duration (run cs (Core.init e)).
Proof.
  assert (Hgen : forall s : player, 0 <= duration s -> 0 <= duration (run cs s)).
  { induction cs as [|c cs IH]; intros s Hs; [exact Hs|].
    cbn [run fold_left]. apply IH.
    destruct (is_load_or_not c) as [[path ->]|Hother].
    - unfold step, exec.
      destruct (load_file_effect path s)
        as (_ & _ & [(_ & _ & _ & Hd)|(_ & _ & _ & ->)]); assumption.
    - destruct (step_position s c Hother) as [-> _]. exact Hs. }
  apply Hgen. apply Qle_refl.
Qed.

(** X2. The current position is never negative along a run whose seeks
    ask for positions that are not negative. *)
Theorem position_never_negative (e : E) (cs : list (command E)) :
  Forall (fun c => forall x, c = Seek x -> 0 <= x) cs ->
  0 <= current_position (run cs (Core.init e)).
Proof.
  intros Hseeks.
  assert (Hgen : forall s : player,
             0 <= current_position s -> 0 <= current_position (run cs s)).
  { induction Hseeks as [|c cs Hc _ IH]; intros s Hs; [exact Hs|].
    cbn [run fold_left]. apply IH.
    destruct (is_load_or_not c) as [[path ->]|Hother].
    - unfold step, exec.
      destruct (load_file_effect path s)
        as (_ & _ & [(_ & _ & -> & _)|(_ & _ & -> & _)]);
        [apply Qle_refl | exact Hs].
    - destruct (step_position s c Hother) as [_ [->|[->|[Hseek|[_ ->]]]]].
      + exact Hs.
      + apply Qle_refl.
      + now apply Hc.
      + apply get_position_not_negative. }
  apply Hgen. apply Qle_refl.
Qed.

(** X3. Loading.  A file that is not there makes [load_file] raise,
    with the player marked unloaded and nothing else changed but the
    recorded path.  A file that is there and that the engine takes loads
    at position zero, flags untouched, with the duration the engine
    reports in seconds, or zero when that is not positive or cannot be
    told. *)
Theorem load_file_outcomes (path : string) (s : player) :
  (path_exists path (media_player s) = false ->
   load_file path s =
     (Raise (Exception "Failed to load audio file"),
      set_is_loaded false (set_file_path (Some path) s))) /\
  (forall e1,
     path_exists path (media_player s) = true ->
     set_media path (media_player s) = Return e1 ->
     load_file path s =
       (Return tt,
        mkAudioPlayer (Some path) true (is_playing s) (is_paused s) 0
          (match media_get_duration e1 with
           | Return ms => if (0 <? ms)%Z then ms_to_seconds ms else 0
           | Raise _ => 0
           end)
          e1 (monitor_thread s) (stop_monitoring s))).
Proof.
  destruct s as [fp ld pl pa cp du mp mt sm]. cbn [media_player]. split.
  - intros Hpe. open_comp. rewrite Hpe. reflexivity.
  - intros e1 Hpe Hsm. open_comp. rewrite Hpe. cbv beta iota.
    rewrite Hsm. cbv beta iota.
    destruct (media_get_duration e1) as [ms|x]; reflexivity.
Qed.

(** X5. A monitor iteration leaves the loaded flag, the paused flag, the
    duration and the engine alone and never sets the playing flag; it
    does nothing at all unless the player is playing with monitoring on;
    when it runs and the engine says the track has ended, it clears the
    playing flag and ends the loop. *)
Theorem monitor_iteration (s : player) :
  let s' := snd (_monitor_playback_step s) in
  is_loaded s' = is_loaded s /\
  is_paused s' = is_paused s /\
  duration s' = duration s /\
  media_player s' = media_player s /\
  (is_playing s' = true -> is_playing s = true) /\
  (is_playing s = false \/ stop_monitoring s = true -> s' = s) /\
  (is_playing s = true -> stop_monitoring s = false ->
   current_position s' = get_position s /\
   (get_state (media_player s) = Return Ended ->
    is_playing s' = false /\ fst (_monitor_playback_step s) = false)).
Proof.
  destruct s as [fp ld pl pa cp du mp mt sm].
  cbv [_monitor_playback_step andb]. open_comp.
  split; [|split; [|split; [|split; [|split; [|split]]]]].
  1-5: split_cases; cbn; congruence.
  - intros [->| ->]; [destruct sm|]; reflexivity.
  - intros -> ->. cbv beta iota. split.
    + split_cases; reflexivity.
    + intros Hst. rewrite Hst. split; reflexivity.
Qed.

(** X6. Volume.  [set_volume] never raises and never touches the
    adapter's own fields; what reaches the engine is the volume clamped
    to 0..100, and a volume already in that range reaches it as it is. *)
Theorem set_volume_clamps (s : player) (v : Z) :
  exists c : Z,
    (0 <= c <= 100)%Z /\
    ((0 <= v <= 100)%Z -> c = v) /\
    ((v < 0)%Z -> c = 0%Z) /\
    ((100 < v)%Z -> c = 100%Z) /\
    set_volume v s =
      (Return tt,
       match audio_set_volume c (media_player s) with
       | Return e => set_media_player e s
       | Raise _ => s
       end).
Proof.
  exists (Z.max 0 (Z.min 100 v)). repeat split; try lia.
  unfold set_volume, try_except, vlc, ret.
  destruct (audio_set_volume _ _); reflexivity.
Qed.

(** X7. Engine failures.  On a loaded player, an engine call that raises
    inside [pause], [unpause], [stop] or [set_position] is absorbed: the
    method returns and the player is as it was.  Inside [play] it is
    raised again to the caller, and the player is as it was too. *)
Theorem engine_failures (s : player) (x : Q) :
  is_loaded s = true ->
  (returned (mp_pause (media_player s)) = false ->
   pause s = (Return tt, s) /\ unpause s = (Return tt, s)) /\
  (returned (mp_stop (media_player s)) = false -> stop s = (Return tt, s)) /\
  (returned (set_time (py_int (x * 1000)) (media_player s)) = false ->
   set_position x s = (Return tt, s)) /\
  (returned (mp_play (media_player s)) = false ->
   play s = (Raise (Exception "Failed to play audio"), s)).
Proof.
  destruct s as [fp ld pl pa cp du mp mt sm]. cbn [is_loaded media_player].
  intros ->. split; [|split; [|split]]; intros Hr; try split; open_comp;
    match goal with
    | |- context [match ?c with _ => _ end] => destruct c; [discriminate Hr|]
    end; reflexivity.
Qed.

End Adapter.

Lemma position_never_negative_witness :
  0 <= current_position (run Sim.two_minutes (Core.init Sim.fresh)).
Proof.
  apply (position_never_negative Sim.fresh Sim.two_minutes).
  repeat constructor; intros x Hx; try discriminate Hx.
  injection Hx as <-. unfold Qle; simpl; lia.
Defined.

Lemma load_file_outcomes_witness :
  fst (load_file "missing.mp3" (Core.init Sim.fresh)) =
    Raise (Exception "Failed to load audio file") /\
  duration (snd (load_file "raw.mp3" (Core.init Sim.fresh))) = 0.
Proof.
  assert (Hno : path_exists "missing.mp3" (media_player (Core.init Sim.fresh)) = false)
    by reflexivity.
  assert (Hyes : path_exists "raw.mp3" (media_player (Core.init Sim.fresh)) = true)
    by reflexivity.
  split.
  - rewrite (proj1 (load_file_outcomes "missing.mp3" (Core.init Sim.fresh)) Hno).
    reflexivity.
  - rewrite (proj2 (load_file_outcomes "raw.mp3" (Core.init Sim.fresh)) _
               Hyes eq_refl).
    reflexivity.
Defined.

Lemma engine_failures_witness :
  is_loaded Broken.stranded = true /\
  pause Broken.stranded = (Return tt, Broken.stranded) /\
  fst (play Broken.stranded) = Raise (Exception "Failed to play audio").
Proof.
  assert (Hl : is_loaded Broken.stranded = true) by reflexivity.
  split; [exact Hl|].
  destruct (engine_failures Broken.stranded 30 Hl) as (Hp & _ & _ & Hplay).
  split.
  - apply Hp. reflexivity.
  - rewrite Hplay; reflexivity.
Defined.

End AdapterFacts.

(** * Sessions on the player screen *)

Module SessionFacts.
Import Core Run Gui Session.
Import CoreFacts RunFacts GuiFacts FileUtilsFacts AdapterFacts.

Ltac open_screen :=
  cbv [hide play_audio pause_audio toggle_play_pause stop_audio
       on_progress_change perform act]; open_gui.

Section Screen.

Context {E : Type} `{Vlc E}.

Variable stem : string -> string.

Local Abbreviation screen := (PlayerScreen E).

(** A stop returns, whatever the engine does. *)
Lemma stop_returns (a : AudioPlayer E) : fst (stop a) = Return tt.
Proof.
  destruct a as [fp ld pl pa cp du mp mt sm]. open_comp. split_cases; reflexivity.
Qed.

(** X8. Leaving.  [hide] on a screen with no file loaded writes nothing
    to the store.  With a file loaded and a store whose calls succeed, it
    saves the position read from the engine under the path of the book,
    replacing the former bookmark, and then stops the player.  When the
    save fails, the exception leaves [hide], the records are as they
    were and the player has not been stopped. *)
Theorem hide_saves_position (s : screen) :
  let a := audio_player s in
  let s' := snd (hide s) in
  stop_update s' = true /\
  (is_loaded a = false ->
   fst (hide s) = Return tt /\ DB s' = DB s /\ audio_player s' = a) /\
  (is_loaded a = true -> FileUtils.healthy (DB s) ->
   fst (hide s) = Return tt /\
   FileUtils.the_table (DB s') =
     FileUtils.sql_replace (audiobook_path s) (get_position a)
       (FileUtils.the_table (DB s)) /\
   audio_player s' = step a Stop) /\
  (is_loaded a = true -> FileUtils.fails_within 4 (DB s) = true ->
   fst (hide s) = Raise SqliteError /\
   FileUtils.the_table (DB s') = FileUtils.the_table (DB s) /\
   audio_player s' = a).
Proof.
  destruct s as [path a pl ut su lp tl pb pv q db]. cbv zeta.
  cbn [audio_player audiobook_path DB].
  split; [|split; [|split]].
  - open_screen. split_cases; reflexivity.
  - intros Hl. open_screen. rewrite Hl. cbv beta iota.
    assert (Hst : stop a = (Return tt, a)).
    { clear - Hl. destruct a as [fp ld pl' pa cp du mp mt sm].
      cbn [is_loaded] in Hl. subst ld. reflexivity. }
    rewrite Hst. repeat split.
  - intros Hl Hh. open_screen. rewrite Hl. cbv beta iota.
    rewrite (save_position_healthy path (get_position a) db Hh). cbv beta iota.
    unfold step, exec. pose proof (stop_returns a) as Hst.
    destruct (stop a) as [r a']. cbn [fst snd] in *. subst r. repeat split.
  - intros Hl Hf. open_screen. rewrite Hl. cbv beta iota.
    destruct (save_position_outcome path (get_position a) db) as [Hr Ht].
    rewrite Hf in Hr, Ht.
    destruct (FileUtils.save_position path (get_position a) db) as [r db'].
    cbn [fst snd] in *. subst r. cbv beta iota. repeat split. exact Ht.
Qed.

(** X9. Leave and come back.  When a screen with a loaded file is left
    and the store's calls succeed, entering the same book again, with a
    file that is there and an engine that takes it, finds as last
    position the one the engine reported on leaving. *)
Theorem leave_then_enter_resumes (s : screen) (e' : E) :
  is_loaded (audio_player s) = true ->
  FileUtils.healthy (DB s) ->
  path_exists (audiobook_path s) e' = true ->
  returned (set_media (audiobook_path s) e') = true ->
  last_position (enter stem (audiobook_path s) e' (DB (snd (hide s)))) =
    Some (get_position (audio_player s)).
Proof.
  destruct s as [path a pl ut su lp tl pb pv q db].
  cbn [audio_player audiobook_path DB]. intros Hl Hh Hpe Hsm.
  destruct (returned_inv _ Hsm) as [e1 Hsm1].
  destruct (load_file_new_player path e' e1 Hpe Hsm1) as [d Hload].
  set (pos := get_position a) in *.
  set (s0 := mkPlayerScreen path a pl ut su lp tl pb pv q db).
  assert (Hdb : exists fs,
             DB (snd (hide s0)) =
               FileUtils.mkDatabase
                 (Some (FileUtils.sql_replace path pos (FileUtils.the_table db))) fs /\
             FileUtils.healthy (DB (snd (hide s0)))).
  { subst s0. open_screen. rewrite Hl. cbv beta iota. fold pos.
    rewrite (save_position_healthy path pos db Hh). cbv beta iota.
    destruct (stop a) as [r a']. cbn [snd DB].
    eexists. split; [reflexivity|].
    destruct db as [t fs]. now apply (healthy_skipn t _ fs 4). }
  destruct Hdb as (fs & Hdb & Hh').
  pose proof (get_position_healthy path _ Hh') as Hget.
  clearbody s0. destruct (DB (snd (hide s0))) as [t' fs']. clear s0.
  injection Hdb as -> ->.
  cbn [FileUtils.the_table FileUtils.progress] in Hget.
  unfold FileUtils.sql_select in Hget. rewrite filter_key_replace_same in Hget.
  cbn [map snd hd] in Hget. clearbody pos.
  unfold enter, Gui.init. open_gui. rewrite Hload. cbv beta iota.
  rewrite Hget. cbv beta iota.
  destruct (Qlt_le_dec 0 pos); cbv beta iota; [|reflexivity].
  destruct (play _) as [[u|x] a2]; reflexivity.
Qed.

(** A call on the player made through the screen changes the player
    only. *)
Lemma player_frame {A} (c : comp (AudioPlayer E) A) (s : screen) :
  player c s = (fst (c (audio_player s)), set_audio_player (snd (c (audio_player s))) s).
Proof.
  unfold player. destruct (c (audio_player s)); reflexivity.
Qed.

(** The player after a skip or a slider move. *)
Lemma seek_actions_player (s : screen) (value : Q) :
  let a := audio_player s in
  audio_player (act s SkipForward) =
    snd (set_position (skip_forward_new_pos (get_position a) (duration a)) a) /\
  audio_player (act s SkipBackward) =
    snd (set_position (skip_backward_new_pos (get_position a)) a) /\
  audio_player (act s (ProgressChange value)) =
    (if is_loaded a then snd (set_position ((value / 100) * duration a) a) else a).
Proof.
  destruct s as [path a pl ut su lp tl pb pv q db]. cbv zeta. cbn [audio_player].
  repeat split; open_screen.
  - destruct (set_position _ a) as [[u|x] a']; reflexivity.
  - destruct (set_position _ a) as [[u|x] a']; reflexivity.
  - destruct (is_loaded a); cbv beta iota; [|reflexivity].
    destruct (set_position _ a) as [[u|x] a']; reflexivity.
Qed.

Lemma act_keeps_store (s : screen) (a : action) : DB (act s a) = DB s.
Proof.
  destruct s as [path ap pl ut su lp tl pb pv q db].
  destruct a; open_screen; split_cases; reflexivity.
Qed.

Lemma happen_keeps_store (s : screen) (ev : event E) : DB (happen s ev) = DB s.
Proof.
  destruct s as [path ap pl ut su lp tl pb pv q db].
  destruct ev as [| |n|e]; unfold happen.
  - rewrite player_frame. reflexivity.
  - open_screen. split_cases; reflexivity.
  - cbn [after_queue]. destruct (nth_error q n) as [[ms f]|]; [|reflexivity].
    destruct f; open_screen; split_cases; reflexivity.
  - rewrite player_frame. reflexivity.
Qed.

(** X10. Only leaving writes the store: no button, no slider move, no
    monitor or poller iteration, no callback and no move of the engine
    touches the database; in particular [stop_audio], which is all that
    quitting calls, saves nothing. *)
Theorem store_written_only_on_hide (ms : list (move E)) (s : screen) :
  DB (session ms s) = DB s.
Proof.
  revert s. induction ms as [|m ms IH]; intros s; [reflexivity|].
  cbn [session fold_left]. fold (session ms (advance s m)). rewrite IH.
  destruct m as [a|ev]; [apply act_keeps_store | apply happen_keeps_store].
Qed.

(** What an iteration of the poller leaves behind. *)
Lemma update_progress_step_effect (s : screen) :
  stop_update s = false ->
  let a := audio_player s in
  snd (update_progress_step s) =
    set_after_queue
      (after_queue s ++
       (if is_loaded a then
          (if Qlt_le_dec 0 (duration a)
           then [(0%Z, update_progress_ui (get_position a) (duration a)
                         ((get_position a / duration a) * 100))]
           else []) ++
          (if Gui.is_playing s && Qle_bool (duration a) (get_position a)
           then [(0%Z, on_audio_finished)]
           else [])
        else []))
      s.
Proof.
  destruct s as [path a pl ut su lp tl pb pv q db].
  cbn [stop_update audio_player Gui.is_playing after_queue]. intros ->.
  open_screen. destruct (is_loaded a); cbv beta iota.
  - destruct (Qlt_le_dec 0 (duration a)); cbv beta iota;
      destruct (pl && Qle_bool (duration a) (get_position a)); cbv beta iota;
      cbn [app]; rewrite <- ?app_assoc, ?app_nil_r; reflexivity.
  - rewrite app_nil_r. reflexivity.
Qed.

(** X11. The finished signal.  An iteration of the poller changes
    nothing but the queue of callbacks.  It queues [on_audio_finished]
    exactly when a file is loaded, the screen's playing flag is set and
    the position read from the engine has reached the duration; the
    duration is not required to be known, so with a duration of zero the
    signal is queued at every iteration while the flag is set.  The
    callback itself clears the screen's flag and leaves the player as it
    is. *)
Theorem finished_signal (s : screen) :
  stop_update s = false ->
  let a := audio_player s in
  let s' := snd (update_progress_step s) in
  audio_player s' = a /\ DB s' = DB s /\ Gui.is_playing s' = Gui.is_playing s /\
  (exists added,
     after_queue s' = after_queue s ++ added /\
     (In (0%Z, on_audio_finished) added <->
      is_loaded a = true /\ Gui.is_playing s = true /\
      get_duration a <= get_position a)) /\
  (is_loaded a = true -> Gui.is_playing s = true -> get_duration a == 0 ->
   In (0%Z, on_audio_finished) (after_queue s')) /\
  audio_player (snd (run_callback on_audio_finished s')) = a /\
  Gui.is_playing (snd (run_callback on_audio_finished s')) = false.
Proof.
  clear stem.
  intros Hrun a s'. subst s'.
  rewrite (update_progress_step_effect s Hrun). fold a. unfold get_duration.
  set (ui := if Qlt_le_dec 0 (duration a)
             then [(0%Z, update_progress_ui (get_position a) (duration a)
                           ((get_position a / duration a) * 100))]
             else []).
  assert (Hui : ~ In (0%Z, on_audio_finished) ui).
  { subst ui. destruct (Qlt_le_dec 0 (duration a));
      [intros [Hx|[]]; discriminate Hx | intros []]. }
  assert (Hfin : In (0%Z, on_audio_finished)
                   (if Gui.is_playing s && Qle_bool (duration a) (get_position a)
                    then [(0%Z, on_audio_finished)] else []) <->
                 Gui.is_playing s = true /\ duration a <= get_position a).
  { rewrite <- Qle_bool_iff.
    destruct (Gui.is_playing s); destruct (Qle_bool (duration a) (get_position a));
      cbn; intuition congruence. }
  destruct s as [path a0 pl ut su lp tl pb pv q db].
  cbn [audio_player Gui.is_playing DB after_queue set_after_queue] in *. subst a.
  split; [reflexivity|]. split; [reflexivity|]. split; [reflexivity|].
  split; [|split; [|split; reflexivity]].
  - eexists. split; [reflexivity|].
    destruct (is_loaded a0).
    + rewrite in_app_iff, Hfin. intuition.
    + cbn. intuition discriminate.
  - intros Hl -> Hz. rewrite Hl. rewrite !in_app_iff. right. right.
    apply Hfin. split; [reflexivity|].
    rewrite Hz. unfold get_position. rewrite Hl. cbn [negb].
    destruct (get_time (media_player a0)) as [ms|x]; [|apply Qle_refl].
    destruct (Z.ltb_spec 0 ms) as [Hpos|_]; [|apply Qle_refl].
    apply Qlt_le_weak. now apply ms_to_seconds_pos.
Qed.

(** The adapter's commands with an engine that accepts them. *)
Lemma play_outcome (a : AudioPlayer E) :
  obliging ->
  (is_loaded a = false /\ returned (fst (play a)) = false /\ snd (play a) = a) \/
  (is_loaded a = true /\ fst (play a) = Return tt /\
   is_loaded (snd (play a)) = true /\ Core.is_playing (snd (play a)) = true).
Proof.
  intros Hob. destruct (Hob (media_player a)) as (_ & Hplay & _).
  destruct a as [fp ld pl pa cp du mp mt sm]. cbn [media_player] in Hplay.
  open_comp. destruct ld; cbv beta iota; [right | left; repeat split].
  destruct (mp_play mp); [|discriminate Hplay]. repeat split.
Qed.

Lemma pause_outcome (a : AudioPlayer E) :
  obliging ->
  fst (pause a) = Return tt /\
  is_loaded (snd (pause a)) = is_loaded a /\
  (is_loaded a = true -> Core.is_playing (snd (pause a)) = false) /\
  (is_loaded a = false -> snd (pause a) = a).
Proof.
  intros Hob. destruct (Hob (media_player a)) as (_ & _ & Hpause & _).
  destruct a as [fp ld pl pa cp du mp mt sm]. cbn [media_player] in Hpause.
  open_comp. destruct ld; cbv beta iota; [|repeat split; discriminate].
  destruct (mp_pause mp); [|discriminate Hpause].
  repeat split; discriminate.
Qed.

Lemma stop_outcome (a : AudioPlayer E) :
  obliging ->
  fst (stop a) = Return tt /\
  is_loaded (snd (stop a)) = is_loaded a /\
  (is_loaded a = true -> Core.is_playing (snd (stop a)) = false) /\
  (is_loaded a = false -> snd (stop a) = a).
Proof.
  intros Hob. destruct (Hob (media_player a)) as (_ & _ & _ & Hstop & _).
  destruct a as [fp ld pl pa cp du mp mt sm]. cbn [media_player] in Hstop.
  open_comp. destruct ld; cbv beta iota; [|repeat split; discriminate].
  destruct (mp_stop mp); [|discriminate Hstop].
  repeat split; discriminate.
Qed.

Lemma set_position_outcome (x : Q) (a : AudioPlayer E) :
  fst (set_position x a) = Return tt /\
  is_loaded (snd (set_position x a)) = is_loaded a /\
  Core.is_playing (snd (set_position x a)) = Core.is_playing a /\
  duration (snd (set_position x a)) = duration a /\
  (current_position (snd (set_position x a)) = x \/
   current_position (snd (set_position x a)) = current_position a).
Proof.
  destruct a as [fp ld pl pa cp du mp mt sm].
  open_comp. split_cases; cbn; auto 10.
Qed.

Lemma act_keeps_settled (s : screen) (a : action) :
  obliging -> settled s -> settled (act s a).
Proof.
  intros Hob. destruct s as [path ap pl ut su lp tl pb pv q db].
  unfold settled, in_sync. cbn [Gui.is_playing audio_player]. intros [Hs Hu].
  assert (Hplay : settled (act (mkPlayerScreen path ap pl ut su lp tl pb pv q db)
                             PlayAudio)).
  { unfold settled, in_sync. open_screen.
    destruct (play_outcome ap Hob) as [(Hl & Hr & He)|(Hl & Hr & Hl' & Hp')];
      destruct (play ap) as [r ap']; cbn [fst snd] in *.
    - destruct r; [discriminate Hr|]. subst ap'. cbn. auto.
    - subst r. cbn. split; [congruence|]. intros Hx. congruence. }
  assert (Hpause : settled (act (mkPlayerScreen path ap pl ut su lp tl pb pv q db)
                              PauseAudio)).
  { unfold settled, in_sync. open_screen.
    destruct (pause_outcome ap Hob) as (Hr & Hl' & Hp' & He).
    destruct (pause ap) as [r ap']; cbn [fst snd] in *. subst r. cbn.
    destruct (is_loaded ap) eqn:Hl.
    - rewrite Hp' by reflexivity. split; [reflexivity|]. congruence.
    - rewrite He by reflexivity. rewrite Hl. split; [symmetry|]; auto. }
  destruct a.
  - exact Hplay.
  - exact Hpause.
  - unfold act, perform, toggle_play_pause. cbn [Gui.is_playing].
    destruct pl; [exact Hpause | exact Hplay].
  - unfold settled, in_sync. open_screen.
    destruct (stop_outcome ap Hob) as (Hr & Hl' & Hp' & He).
    destruct (stop ap) as [r ap']; cbn [fst snd] in *. subst r. cbn.
    destruct (is_loaded ap) eqn:Hl.
    + rewrite Hp' by reflexivity. split; [reflexivity|]. congruence.
    + rewrite He by reflexivity. rewrite Hl. split; [symmetry|]; auto.
  - open_screen.
    destruct (set_position_outcome
                (skip_forward_new_pos (get_position ap) (duration ap)) ap)
      as (Hr & Hl' & Hp' & _).
    destruct (set_position _ ap) as [r ap']; cbn [fst snd] in *. subst r. cbn.
    rewrite Hl', Hp'. now split.
  - open_screen.
    destruct (set_position_outcome (skip_backward_new_pos (get_position ap)) ap)
      as (Hr & Hl' & Hp' & _).
    destruct (set_position _ ap) as [r ap']; cbn [fst snd] in *. subst r. cbn.
    rewrite Hl', Hp'. now split.
  - open_screen. destruct (is_loaded ap) eqn:Hl; cbv beta iota.
    + destruct (set_position_outcome (value / 100 * duration ap) ap)
        as (Hr & Hl' & Hp' & _).
      destruct (set_position _ ap) as [r ap']; cbn [fst snd] in *. subst r. cbn.
      rewrite Hl', Hp'. split; [assumption | congruence].
    + cbn. rewrite Hl. now split.
Qed.

Lemma enter_settled (path : string) (e : E) (db : FileUtils.database) :
  obliging -> settled (enter stem path e db).
Proof.
  intros Hob. unfold settled, in_sync, enter, Gui.init. open_gui.
  destruct (load_file_effect path (Core.init e)) as (Hp & _ & Hcases).
  cbn [Core.is_playing Core.init] in Hp.
  destruct (load_file path (Core.init e)) as [r a]. cbn [fst snd] in *.
  destruct Hcases as [(-> & Hl & _)|(Hr & Hl & _)].
  - cbv beta iota.
    destruct (FileUtils.get_position path db) as [[p|x] db']; cbv beta iota.
    + destruct (Qlt_le_dec 0 p); cbv beta iota.
      * destruct (play_outcome a Hob) as [(Hl0 & _)|(_ & Hr & Hl' & Hp')];
          [congruence|].
        destruct (play a) as [r a']. cbn [fst snd] in *. subst r. cbn.
        split; congruence.
      * cbn. split; congruence.
    + cbn. split; congruence.
  - destruct r; [discriminate Hr|]. cbn. split; congruence.
Qed.

(** X12. With an engine that accepts its commands, the screen's playing
    flag and the adapter's agree after entering a book and after every
    sequence of button presses and slider moves that follows, whether or
    not the book could be loaded. *)
Theorem ui_flag_follows_adapter
    (path : string) (e : E) (db : FileUtils.database) (acts : list action) :
  obliging ->
  in_sync (fold_left act acts (enter stem path e db)).
Proof.
  intros Hob.
  assert (Hgen : forall s : screen, settled s -> settled (fold_left act acts s)).
  { induction acts as [|a acts IH]; intros s Hs; [exact Hs|].
    cbn [fold_left]. apply IH. now apply act_keeps_settled. }
  exact (proj1 (Hgen _ (enter_settled path e db Hob))).
Qed.

(** X13. The seeks that the screen computes.  On a screen whose current
    position lies between zero and a duration that is not negative,
    skipping forward, and moving the slider to a value between 0 and
    100, leave the current position between zero and the duration,
    whatever the engine does; skipping backward does too when the time
    the engine reports is within the duration. *)
Theorem screen_seeks_stay_within_duration (s : screen) (value : Q) :
  let a := audio_player s in
  0 <= current_position a <= duration a ->
  0 <= value <= 100 ->
  let within (s' : screen) :=
    0 <= current_position (audio_player s') <= duration (audio_player s') in
  within (act s SkipForward) /\
  within (act s (ProgressChange value)) /\
  (get_position a <= duration a -> within (act s SkipBackward)).
Proof.
  cbv zeta. intros [Hlo Hhi] [Hv0 Hv1].
  destruct (seek_actions_player s value) as (-> & -> & ->).
  set (ap := audio_player s) in *.
  assert (Hd : 0 <= duration ap) by exact (Qle_trans _ _ _ Hlo Hhi).
  pose proof (get_position_not_negative ap) as Hp.
  assert (Hseek : forall x, 0 <= x <= duration ap ->
            0 <= current_position (snd (set_position x ap))
              <= duration (snd (set_position x ap))).
  { intros x [Hx0 Hx1].
    destruct (set_position_outcome x ap) as (_ & _ & _ & -> & [->| ->]); now split. }
  split; [|split].
  - apply Hseek.
    destruct (skip_targets_within_duration (get_position ap) (duration ap) Hd)
      as [Hup _].
    split; [|exact Hup].
    unfold skip_forward_new_pos, py_max.
    destruct (Qle_bool _ _); [destruct (Qlt_le_dec _ _)|]; lra.
  - destruct (is_loaded ap); [|now split].
    apply Hseek. split.
    + apply Qmult_le_0_compat; [|exact Hd].
      apply Qle_shift_div_l; [reflexivity | lra].
    + setoid_replace (duration ap) with (1 * duration ap) at 2 by ring.
      apply Qmult_le_compat_r; [|exact Hd].
      apply Qle_shift_div_r; [reflexivity | lra].
  - intros Hpd. apply Hseek.
    unfold skip_backward_new_pos, py_max.
    destruct (Qlt_le_dec _ _); split; lra.
Qed.

End Screen.

Lemma hide_saves_position_witness :
  FileUtils.the_table (DB (snd (hide Sim.listening))) = [("book.mp3"%string, 30000 / 1000)] /\
  Core.is_playing (audio_player (snd (hide Sim.listening))) = false.
Proof.
  assert (Hl : is_loaded (audio_player Sim.listening) = true) by reflexivity.
  assert (Hh : FileUtils.healthy (DB Sim.listening)) by constructor.
  destruct (hide_saves_position Sim.listening) as (_ & _ & Hsave & _).
  destruct (Hsave Hl Hh) as (_ & -> & ->). split; reflexivity.
Defined.

Lemma leave_then_enter_resumes_witness :
  last_position
    (enter Sim.stem "book.mp3" Sim.fresh (DB (snd (hide Sim.listening)))) =
  Some (30000 / 1000).
Proof.
  assert (Hl : is_loaded (audio_player Sim.listening) = true) by reflexivity.
  assert (Hh : FileUtils.healthy (DB Sim.listening)) by constructor.
  assert (Hpe : path_exists (audiobook_path Sim.listening) Sim.fresh = true)
    by reflexivity.
  assert (Hsm : returned (set_media (audiobook_path Sim.listening) Sim.fresh) = true)
    by reflexivity.
  exact (leave_then_enter_resumes Sim.stem Sim.listening Sim.fresh Hl Hh Hpe Hsm).
Defined.

Lemma finished_signal_witness :
  stop_update Sim.at_the_end = false /\
  In (0%Z, on_audio_finished)
    (after_queue (snd (update_progress_step Sim.at_the_end))).
Proof.
  assert (Hrun : stop_update Sim.at_the_end = false) by reflexivity.
  split; [exact Hrun|].
  destruct (finished_signal Sim.at_the_end Hrun)
    as (_ & _ & _ & (added & -> & Hin) & _).
  apply in_or_app. right. apply Hin.
  repeat split. vm_compute. discriminate.
Defined.

Lemma ui_flag_follows_adapter_witness :
  in_sync
    (fold_left act [PlayAudio; SkipForward; TogglePlayPause; StopAudio]
       (enter Sim.stem "book.mp3" Sim.fresh Sim.empty_db)).
Proof.
  exact (ui_flag_follows_adapter Sim.stem "book.mp3" Sim.fresh Sim.empty_db
           [PlayAudio; SkipForward; TogglePlayPause; StopAudio] sim_obliging).
Defined.

Lemma screen_seeks_stay_within_duration_witness :
  0 <= current_position (audio_player (act Sim.listening SkipForward))
    <= duration (audio_player (act Sim.listening SkipForward)).
Proof.
  assert (Hb : 0 <= current_position (audio_player Sim.listening)
                 <= duration (audio_player Sim.listening))
    by (split; vm_compute; discriminate).
  assert (Hv : 0 <= 50 <= 100) by (split; vm_compute; discriminate).
  exact (proj1 (screen_seeks_stay_within_duration Sim.listening 50 Hb Hv)).
Defined.

End SessionFacts.

(** * Formatting and percentages *)

Module AudioUtilsFacts.
Import Core AudioUtils Labels.

Lemma Qfloor_unique (x : Q) (z : Z) :
  inject_Z z <= x -> x < inject_Z (z + 1) -> Qfloor x = z.
Proof.
  intros Hlo Hhi. apply Z.le_antisymm.
  - apply Z.lt_succ_r. rewrite <- Z.add_1_r. rewrite Zlt_Qlt.
    apply Qle_lt_trans with x; [apply Qfloor_le | exact Hhi].
  - rewrite <- (Qfloor_Z z). now apply Qfloor_resp_le.
Qed.

(** Floor division by a positive integer works on the whole part. *)
Lemma floor_div (s : Q) (k : Z) :
  (0 < k)%Z -> Qfloor (s / inject_Z k) = (Qfloor s / k)%Z.
Proof.
  intros Hk. set (n := Qfloor s).
  assert (Hkq : 0 < inject_Z k) by (unfold Qlt; cbn; lia).
  pose proof (Qfloor_le s) as Hlo. pose proof (Qlt_floor s) as Hhi. fold n in Hlo, Hhi.
  pose proof (Z.div_mod n k ltac:(lia)) as Hdm.
  pose proof (Z.mod_pos_bound n k Hk) as Hr.
  apply Qfloor_unique.
  - apply Qle_shift_div_l; [exact Hkq|].
    rewrite <- inject_Z_mult. apply Qle_trans with (inject_Z n); [|exact Hlo].
    rewrite <- Zle_Qle. lia.
  - apply Qlt_shift_div_r; [exact Hkq|].
    rewrite <- inject_Z_mult. apply Qlt_le_trans with (inject_Z (n + 1)); [exact Hhi|].
    rewrite <- Zle_Qle. lia.
Qed.

(** The remainder has the remainder of the whole part as whole part. *)
Lemma floor_mod (s : Q) (k : Z) :
  (0 < k)%Z -> Qfloor (Py.mod_ s (inject_Z k)) = (Qfloor s mod k)%Z.
Proof.
  intros Hk. unfold Py.mod_. rewrite (floor_div s k Hk). set (n := Qfloor s).
  pose proof (Qfloor_le s) as Hlo. pose proof (Qlt_floor s) as Hhi. fold n in Hlo, Hhi.
  pose proof (Z.div_mod n k ltac:(lia)) as Hdm.
  assert (Hn : inject_Z n == inject_Z k * inject_Z (n / k) + inject_Z (n mod k)).
  { rewrite <- inject_Z_mult, <- inject_Z_plus. now rewrite <- Hdm. }
  assert (Hn1 : inject_Z (n + 1) == inject_Z n + 1).
  { rewrite inject_Z_plus. reflexivity. }
  assert (Hm1 : inject_Z (n mod k + 1) == inject_Z (n mod k) + 1).
  { rewrite inject_Z_plus. reflexivity. }
  apply Qfloor_unique.
  - lra.
  - rewrite Hm1. rewrite Hn1 in Hhi. lra.
Qed.

Lemma mod_nonneg (s : Q) (k : Z) : (0 < k)%Z -> 0 <= Py.mod_ s (inject_Z k).
Proof.
  intros Hk. apply Qle_trans with (inject_Z (Qfloor (Py.mod_ s (inject_Z k)))).
  - rewrite (floor_mod s k Hk).
    pose proof (Z.mod_pos_bound (Qfloor s) k Hk). unfold Qle; cbn. lia.
  - apply Qfloor_le.
Qed.

Lemma py_int_inject_Z (z : Z) : py_int (inject_Z z) = z.
Proof. unfold py_int. cbn. apply Z.quot_1_r. Qed.

Lemma py_int_nonneg (q : Q) : 0 <= q -> py_int q = Qfloor q.
Proof.
  destruct q as [n d]. unfold py_int, Qfloor, Qle. cbn. intros Hn.
  apply Z.quot_div_nonneg; lia.
Qed.

(** The three fields that the formatters compute from a float. *)
Lemma hours_field (s : Q) :
  py_int (Py.floordiv s 3600) = (Qfloor s / 3600)%Z.
Proof.
  unfold Py.floordiv. rewrite py_int_inject_Z.
  apply (floor_div s 3600). reflexivity.
Qed.

Lemma minutes_of_hour_field (s : Q) :
  py_int (Py.floordiv (Py.mod_ s 3600) 60) = (Qfloor s mod 3600 / 60)%Z.
Proof.
  unfold Py.floordiv. rewrite py_int_inject_Z.
  rewrite (floor_div _ 60) by reflexivity.
  pose proof (floor_mod s 3600 eq_refl) as Hm.
  change (inject_Z 3600) with 3600 in Hm. now rewrite Hm.
Qed.

Lemma minutes_field (s : Q) :
  py_int (Py.floordiv s 60) = (Qfloor s / 60)%Z.
Proof.
  unfold Py.floordiv. rewrite py_int_inject_Z.
  apply (floor_div s 60). reflexivity.
Qed.

Lemma seconds_field (s : Q) :
  py_int (Py.mod_ s 60) = (Qfloor s mod 60)%Z.
Proof.
  rewrite py_int_nonneg by (apply (mod_nonneg s 60); reflexivity).
  apply (floor_mod s 60). reflexivity.
Qed.

Lemma length_append (a b : string) :
  String.length (a ++ b) = (String.length a + String.length b)%nat.
Proof.
  induction a as [|c a IH]; cbn; [reflexivity | now rewrite IH].
Qed.

Lemma append_assoc (a b c : string) : ((a ++ b) ++ c = a ++ (b ++ c))%string.
Proof.
  induction a as [|x a IH]; cbn; [reflexivity | now rewrite IH].
Qed.

Lemma zero_padded_length (k : Z) :
  (0 <= k < 100)%Z -> String.length (Py.zero_padded k) = 2%nat.
Proof.
  intros Hk.
  assert (Hall : forallb
                   (fun i => Nat.eqb (String.length (Py.zero_padded (Z.of_nat i))) 2)
                   (seq 0 100) = true)
    by (vm_compute; reflexivity).
  rewrite forallb_forall in Hall. specialize (Hall (Z.to_nat k)).
  rewrite Z2Nat.id in Hall by lia.
  apply Nat.eqb_eq, Hall, in_seq. lia.
Qed.

(** X14. [format_duration] shows whole seconds only.  A duration that is
    not positive gives ["00:00"].  A positive one of [n] whole seconds
    gives the zero-padded fields [n / 3600], [n mod 3600 / 60] and
    [n mod 60], the hours field and its colon left out when it is zero;
    minutes and seconds are below 60 and the fields add up to [n]; the
    text has five characters below one hour and eight from one hour to
    below a hundred hours. *)
Theorem format_duration_fields (seconds : Q) :
  let n := Qfloor seconds in
  let h := (n / 3600)%Z in
  let m := (n mod 3600 / 60)%Z in
  let sec := (n mod 60)%Z in
  (seconds <= 0 -> format_duration seconds = "00:00"%string) /\
  (0 < seconds ->
   format_duration seconds =
     (if (0 <? h)%Z
      then Py.zero_padded h ++ ":" ++ Py.zero_padded m ++ ":" ++ Py.zero_padded sec
      else Py.zero_padded m ++ ":" ++ Py.zero_padded sec)%string /\
   (0 <= m < 60)%Z /\ (0 <= sec < 60)%Z /\ (h * 3600 + m * 60 + sec = n)%Z /\
   (seconds < 3600 -> String.length (format_duration seconds) = 5%nat) /\
   (3600 <= seconds -> seconds < 360000 ->
    String.length (format_duration seconds) = 8%nat)).
Proof.
  cbv zeta. split.
  - intros Hle. unfold format_duration.
    apply Qle_bool_iff in Hle. now rewrite Hle.
  - intros Hpos.
    assert (Hb : Qle_bool seconds 0 = false).
    { destruct (Qle_bool seconds 0) eqn:Hb; [|reflexivity].
      apply Qle_bool_iff in Hb. exfalso. apply (Qlt_not_le _ _ Hpos Hb). }
    assert (Hfmt : format_duration seconds =
      (if (0 <? Qfloor seconds / 3600)%Z
       then Py.zero_padded (Qfloor seconds / 3600) ++ ":" ++
            Py.zero_padded (Qfloor seconds mod 3600 / 60) ++ ":" ++
            Py.zero_padded (Qfloor seconds mod 60)
       else Py.zero_padded (Qfloor seconds mod 3600 / 60) ++ ":" ++
            Py.zero_padded (Qfloor seconds mod 60))%string).
    { unfold format_duration. rewrite Hb.
      now rewrite hours_field, minutes_of_hour_field, seconds_field. }
    set (n := Qfloor seconds) in *.
    assert (Hn0 : (0 <= n)%Z).
    { exact (Qfloor_resp_le 0 seconds (Qlt_le_weak _ _ Hpos)). }
    pose proof (Z.mod_pos_bound n 3600 eq_refl) as Hr.
    pose proof (Z.mod_pos_bound n 60 eq_refl) as Hs.
    pose proof (Z.div_mod n 3600 ltac:(lia)) as Hdm.
    pose proof (Z.div_mod (n mod 3600) 60 ltac:(lia)) as Hdm2.
    assert (Hmm : ((n mod 3600) mod 60 = n mod 60)%Z).
    { apply Z.mod_mod_divide. exists 60%Z. reflexivity. }
    assert (Hm : (0 <= n mod 3600 / 60 < 60)%Z).
    { split; [apply Z.div_pos; lia | apply Z.div_lt_upper_bound; lia]. }
    split; [exact Hfmt|]. split; [exact Hm|]. split; [exact Hs|].
    split; [lia|]. split.
    + intros Hlt. rewrite Hfmt.
      assert (Hn1 : (n < 3600)%Z).
      { rewrite Zlt_Qlt. apply Qle_lt_trans with seconds; [apply Qfloor_le | exact Hlt]. }
      rewrite Z.div_small by lia. cbn [Z.ltb Z.compare].
      rewrite !length_append, !zero_padded_length by lia. reflexivity.
    + intros Hge Hlt. rewrite Hfmt.
      assert (Hn1 : (3600 <= n < 360000)%Z).
      { split.
        - exact (Qfloor_resp_le 3600 seconds Hge).
        - rewrite Zlt_Qlt. apply Qle_lt_trans with seconds; [apply Qfloor_le | exact Hlt]. }
      assert (Hh : (1 <= n / 3600 < 100)%Z).
      { split; [apply Z.div_le_lower_bound; lia | apply Z.div_lt_upper_bound; lia]. }
      destruct (Z.ltb_spec 0 (n / 3600)) as [_|Hx]; [|lia].
      rewrite !length_append, !zero_padded_length by lia. reflexivity.
Qed.

(** X15. [PlayerScreen.format_time] shows whole minutes and seconds: for
    a time that is not negative, of [n] whole seconds (the floor), the
    fields are [n / 60] and [n mod 60], each padded with a space to two
    characters; the minutes are not negative, the seconds are below 60
    and the two add up to [n]. *)
Theorem format_time_fields (seconds : Q) :
  0 <= seconds ->
  let n := Qfloor seconds in
  format_time seconds =
    Some (Py.space_padded (n / 60) ++ ":" ++ Py.space_padded (n mod 60))%string /\
  (0 <= n / 60)%Z /\
  (0 <= n mod 60 < 60)%Z /\
  (n / 60 * 60 + n mod 60 = n)%Z.
Proof.
  intros Hpos. cbv zeta.
  assert (Hn : (0 <= Qfloor seconds)%Z) by exact (Qfloor_resp_le 0 seconds Hpos).
  split; [|split; [|split]].
  - unfold format_time. apply Qle_bool_iff in Hpos. rewrite Hpos.
    now rewrite minutes_field, seconds_field.
  - apply Z.div_pos; [exact Hn | reflexivity].
  - apply Z.mod_pos_bound. reflexivity.
  - pose proof (Z.div_mod (Qfloor seconds) 60 ltac:(lia)). lia.
Qed.

Lemma format_time_fields_witness :
  0 <= 65 /\ format_time 65 = Some " 1: 5"%string.
Proof.
  assert (Hpos : 0 <= 65) by (vm_compute; discriminate).
  split; [exact Hpos|].
  rewrite (proj1 (format_time_fields 65 Hpos)). reflexivity.
Defined.

(** X16. [calculate_progress_percentage] always lies between 0 and 100;
    it is 0 when the total is not positive, and the plain quotient times
    100, the value the poller reports, when the position lies between
    zero and a positive total. *)
Theorem progress_percentage_bounds (current_position total_duration : Q) :
  0 <= calculate_progress_percentage current_position total_duration <= 100 /\
  (total_duration <= 0 ->
   calculate_progress_percentage current_position total_duration = 0) /\
  (0 < total_duration -> 0 <= current_position <= total_duration ->
   calculate_progress_percentage current_position total_duration ==
     (current_position / total_duration) * 100).
Proof.
  unfold calculate_progress_percentage, py_max, Py.min.
  set (progress := (current_position / total_duration) * 100).
  split; [|split].
  - destruct (Qle_bool total_duration 0); [lra|].
    destruct (Qlt_le_dec progress 100);
      match goal with |- context [Qlt_le_dec 0 ?x] => destruct (Qlt_le_dec 0 x) end;
      lra.
  - intros Hle. apply Qle_bool_iff in Hle. now rewrite Hle.
  - intros Hpos [Hlo Hhi].
    assert (Hb : Qle_bool total_duration 0 = false).
    { destruct (Qle_bool total_duration 0) eqn:Hb; [|reflexivity].
      apply Qle_bool_iff in Hb. exfalso. apply (Qlt_not_le _ _ Hpos Hb). }
    rewrite Hb.
    assert (Hq0 : 0 <= current_position / total_duration)
      by (apply Qle_shift_div_l; [exact Hpos | lra]).
    assert (Hq1 : current_position / total_duration <= 1)
      by (apply Qle_shift_div_r; [exact Hpos | lra]).
    assert (Hp0 : 0 <= progress) by (unfold progress; lra).
    assert (Hp1 : progress <= 100) by (unfold progress; lra).
    destruct (Qlt_le_dec progress 100) as [Hlt|Hge].
    + destruct (Qlt_le_dec 0 progress) as [_|Hz]; [reflexivity | lra].
    + destruct (Qlt_le_dec 0 100) as [_|Hz]; lra.
Qed.

Lemma times_1024 (x : Q) : x == (x / 1024) * 1024.
Proof. field. Qed.

Lemma round_half_even_Z (z : Z) : Py.round_half_even (inject_Z z) = z.
Proof.
  unfold Py.round_half_even. rewrite Qfloor_Z.
  assert (Hz : inject_Z z - inject_Z z == 0) by ring.
  assert (Hlt : Qcompare (inject_Z z - inject_Z z) (1 # 2) = Lt)
    by (rewrite Hz; reflexivity).
  now rewrite Hlt.
Qed.

Lemma fixed1_whole (n : Z) :
  (0 <= n)%Z -> Py.fixed1 (inject_Z n) = (Py.str n ++ ".0")%string.
Proof.
  intros Hn. unfold Py.fixed1.
  destruct (Qlt_le_dec (inject_Z n) 0) as [Hneg|_].
  - exfalso. unfold Qlt in Hneg. cbn in Hneg. lia.
  - unfold Py.one_decimal.
    change (inject_Z n * 10) with (inject_Z (n * 10)).
    rewrite round_half_even_Z, Z.div_mul, Z.mod_mul by lia. reflexivity.
Qed.

(** X21. [format_file_size] picks the unit by magnitude: bytes below
    1024 (negative sizes included), then KB, MB and GB, each up to 1024
    times the one before, and TB from 1024^4 on with no upper limit; the
    number shown is the size divided by 1024 once per step, with one
    decimal.  A whole number of bytes below 1024 is shown with ".0". *)
Theorem format_file_size_units (size_bytes : Q) (n : Z) :
  (size_bytes < 1024 ->
   format_file_size size_bytes = (Py.fixed1 size_bytes ++ " B")%string) /\
  (1024 <= size_bytes -> size_bytes < 1048576 ->
   format_file_size size_bytes = (Py.fixed1 (size_bytes / 1024) ++ " KB")%string) /\
  (1048576 <= size_bytes -> size_bytes < 1073741824 ->
   format_file_size size_bytes =
     (Py.fixed1 (size_bytes / 1024 / 1024) ++ " MB")%string) /\
  (1073741824 <= size_bytes -> size_bytes < 1099511627776 ->
   format_file_size size_bytes =
     (Py.fixed1 (size_bytes / 1024 / 1024 / 1024) ++ " GB")%string) /\
  (1099511627776 <= size_bytes ->
   format_file_size size_bytes =
     (Py.fixed1 (size_bytes / 1024 / 1024 / 1024 / 1024) ++ " TB")%string) /\
  ((0 <= n < 1024)%Z ->
   format_file_size (inject_Z n) = (Py.str n ++ ".0 B")%string).
Proof.
  pose proof (times_1024 size_bytes) as H1.
  pose proof (times_1024 (size_bytes / 1024)) as H2.
  pose proof (times_1024 (size_bytes / 1024 / 1024)) as H3.
  unfold format_file_size. cbn [size_in].
  set (y1 := size_bytes / 1024) in *.
  set (y2 := y1 / 1024) in *.
  set (y3 := y2 / 1024) in *.
  repeat split.
  1-5: intros; destruct (Qlt_le_dec size_bytes 1024);
         destruct (Qlt_le_dec y1 1024);
         destruct (Qlt_le_dec y2 1024);
         destruct (Qlt_le_dec y3 1024);
         try reflexivity; exfalso; lra.
  intros [Hn0 Hn1].
  destruct (Qlt_le_dec (inject_Z n) 1024) as [_|Hge].
  - rewrite (fixed1_whole n Hn0). now rewrite append_assoc.
  - exfalso. unfold Qle in Hge. cbn in Hge. lia.
Qed.

Lemma format_duration_fields_witness :
  0 < 3661 /\ format_duration 3661 = "01:01:01"%string /\
  format_duration 65 = "01:05"%string.
Proof.
  assert (H1 : 0 < 3661) by reflexivity.
  assert (H2 : 0 < 65) by reflexivity.
  split; [exact H1|]. split.
  - rewrite (proj1 (proj2 (format_duration_fields 3661) H1)). reflexivity.
  - rewrite (proj1 (proj2 (format_duration_fields 65) H2)). reflexivity.
Defined.

Lemma progress_percentage_bounds_witness :
  0 < 120 /\ 0 <= 30 <= 120 /\ calculate_progress_percentage 30 120 == 25.
Proof.
  assert (H1 : 0 < 120) by reflexivity.
  assert (H2 : 0 <= 30 <= 120) by (split; vm_compute; discriminate).
  split; [exact H1|]. split; [exact H2|].
  rewrite (proj2 (proj2 (progress_percentage_bounds 30 120)) H1 H2). reflexivity.
Defined.

Lemma format_file_size_units_witness :
  format_file_size 1024 = "1.0 KB"%string /\
  format_file_size 1048576 = "1.0 MB"%string.
Proof.
  split.
  - rewrite (proj1 (proj2 (format_file_size_units 1024 0)));
      [reflexivity | vm_compute; discriminate | reflexivity].
  - rewrite (proj1 (proj2 (proj2 (format_file_size_units 1048576 0))));
      [reflexivity | vm_compute; discriminate | reflexivity].
Defined.

End AudioUtilsFacts.

(** * The library *)

Module LibraryFacts.
Import Library.

Section Files.

Variables (exists_ is_file : string -> bool).
Variables (stem name suffix lower : string -> string).
Variable st_size : string -> Z.

Local Abbreviation new_book := (new_Audiobook exists_ stem name suffix lower st_size).
Local Abbreviation load := (load_audiobooks exists_ is_file stem name suffix lower st_size).
Local Abbreviation refresh := (refresh_library exists_ is_file stem name suffix lower st_size).
Local Abbreviation step := (library_step exists_ is_file stem name suffix lower st_size).

Local Abbreviation kept := (listed exists_ is_file suffix lower).
Local Abbreviation book := (book_of stem name suffix lower st_size).

Lemma library_extension_supported (ext : string) :
  AudioUtils.member ext audio_extensions = true ->
  AudioUtils.member ext AudioUtils.get_supported_formats = true.
Proof.
  unfold AudioUtils.member, audio_extensions, AudioUtils.get_supported_formats.
  cbn [existsb]. intros Hin.
  repeat match type of Hin with
  | (String.eqb ?a ?b || _)%bool = true =>
      destruct (String.eqb a b); cbn [orb] in *; [now rewrite ?orb_true_r|]
  end.
  discriminate Hin.
Qed.

Lemma scan_fold (found : list string) (s : LibraryScreen) :
  let s' := fold_left (scan_one exists_ is_file stem name suffix lower st_size) found s in
  audiobooks s' = audiobooks s ++ map book (filter kept found) /\
  audiobooks_listbox s' =
    audiobooks_listbox s ++ map stem (filter kept found) /\
  selected_audiobook s' = selected_audiobook s /\
  play_button_enabled s' = play_button_enabled s.
Proof.
  revert s. induction found as [|path found IH]; intros s; cbn [fold_left filter map].
  - rewrite !app_nil_r. repeat split.
  - destruct (IH (scan_one exists_ is_file stem name suffix lower st_size s path))
      as (Ha & Hb & Hc & Hd).
    cbv zeta. rewrite Ha, Hb, Hc, Hd. clear IH Ha Hb Hc Hd.
    unfold scan_one, listed, new_Audiobook, _validate_format.
    destruct (is_file path); cbn [andb]; [|repeat split].
    destruct (AudioUtils.member (lower (suffix path)) audio_extensions) eqn:Hext;
      cbn [andb]; [|repeat split].
    destruct (exists_ path); cbn [negb andb]; [|repeat split].
    cbn [file_extension]. fold AudioUtils.get_supported_formats.
    rewrite (library_extension_supported _ Hext). cbn [negb].
    cbn [audiobooks audiobooks_listbox selected_audiobook play_button_enabled
         title map]. fold (book path).
    rewrite <- !app_assoc. repeat split.
Qed.


Lemma load_keeps_selection (dir_exists : bool) (found : list string)
    (s : LibraryScreen) :
  selected_audiobook (load dir_exists found s) = selected_audiobook s /\
  play_button_enabled (load dir_exists found s) = play_button_enabled s.
Proof.
  unfold load_audiobooks. destruct dir_exists; cbn [negb]; [|split; reflexivity].
  destruct (scan_fold found
              (mkLibraryScreen [] (selected_audiobook s) [] (play_button_enabled s)))
    as (_ & _ & Hc & Hd).
  cbn [selected_audiobook play_button_enabled] in Hc, Hd.
  destruct (audiobooks (fold_left _ found _)); cbn; now split.
Qed.

Lemma step_coherent (s : LibraryScreen) (ev : library_event) :
  coherent s -> coherent (step s ev).
Proof.
  intros [Hin Hbtn]. destruct ev as [d f|sel]; cbn [library_step].
  - unfold refresh_library, coherent. cbn. split; [discriminate|].
    split; [discriminate | intros Hx; now elim Hx].
  - unfold on_audiobook_select. destruct sel as [|index sel]; [now split|].
    destruct (nth_error (audiobooks s) index) as [b|] eqn:Hnth; [|now split].
    unfold coherent. cbn. split.
    + intros b' Hb'. injection Hb' as <-. eapply nth_error_In. exact Hnth.
    + split; [discriminate | reflexivity].
Qed.

(** X18. The selection on the library screen.  From the moment the
    screen is built and through every refresh and every click on the
    listbox, the selected book, if any, is one of the listed books, the
    play button is enabled exactly when a book is selected, and so the
    path handed to the player is the path of a listed book.  On an empty
    list, a click changes nothing: the row "No audiobooks found" cannot
    be selected. *)
Theorem library_selection (dir_exists : bool) (found : list string)
    (evs : list library_event) :
  let s := fold_left step evs
             (new_LibraryScreen exists_ is_file stem name suffix lower st_size
                dir_exists found) in
  coherent s /\
  (forall path, play_selected_audiobook s = Some path ->
     In path (map file_path (audiobooks s))) /\
  (audiobooks s = [] -> forall selection, on_audiobook_select selection s = s).
Proof.
  cbv zeta.
  assert (Hinit : coherent (new_LibraryScreen exists_ is_file stem name suffix
                              lower st_size dir_exists found)).
  { unfold new_LibraryScreen, coherent.
    destruct (load_keeps_selection dir_exists found (mkLibraryScreen [] None [] false))
      as [-> ->].
    cbn. split; [discriminate|]. split; [discriminate | intros Hx; now elim Hx]. }
  assert (Hgen : forall s, coherent s -> coherent (fold_left step evs s)).
  { induction evs as [|ev evs IH]; intros s Hs; [exact Hs|].
    cbn [fold_left]. apply IH. now apply step_coherent. }
  specialize (Hgen _ Hinit).
  set (s := fold_left step evs _) in *. clearbody s.
  split; [exact Hgen|]. split.
  - intros path. unfold play_selected_audiobook.
    destruct (selected_audiobook s) as [b|] eqn:Hsel; [|discriminate].
    intros Hp. injection Hp as <-. apply in_map. now apply (proj1 Hgen).
  - intros Hempty [|index sel]; [reflexivity|].
    unfold on_audiobook_select. rewrite Hempty.
    destruct index; reflexivity.
Qed.

Lemma member_In (x : string) (set : list string) :
  AudioUtils.member x set = true <-> In x set.
Proof.
  unfold AudioUtils.member. rewrite existsb_exists. split.
  - intros (y & Hy & Heq). apply String.eqb_eq in Heq. now subst.
  - intros Hin. exists x. split; [exact Hin | apply String.eqb_refl].
Qed.

(** X19. Supported formats.  [validate_audio_file] accepts a path
    exactly when the file exists and [is_supported_audio_format] accepts
    it; [Audiobook._validate_format] returns exactly on the extensions of
    [get_supported_formats]; and the scan of the library looks for those
    same extensions but one: an extension is scanned for exactly when it
    is supported and is not ".aac". *)
Theorem supported_formats (path ext : string) :
  validate_audio_file exists_ suffix lower path =
    exists_ path && AudioUtils.is_supported_audio_format suffix lower path /\
  (_validate_format ext = Return tt <->
   AudioUtils.member ext AudioUtils.get_supported_formats = true) /\
  (AudioUtils.member ext audio_extensions = true <->
   AudioUtils.member ext AudioUtils.get_supported_formats = true /\
   ext <> ".aac"%string).
Proof.
  split; [|split].
  - unfold validate_audio_file, AudioUtils.is_supported_audio_format.
    destruct (exists_ path); reflexivity.
  - unfold _validate_format. fold AudioUtils.get_supported_formats.
    destruct (AudioUtils.member ext AudioUtils.get_supported_formats); cbn;
      split; intros Hx; try reflexivity; discriminate Hx.
  - rewrite !member_In. unfold audio_extensions, AudioUtils.get_supported_formats.
    cbn [In]. split.
    + intros Hin. split; [tauto|].
      intros ->. repeat destruct Hin as [Hin|Hin]; try discriminate Hin. exact Hin.
    + intros [Hin Hne].
      repeat destruct Hin as [Hin|Hin]; try tauto.
      exfalso. apply Hne. now symmetry.
Qed.

(** X20. [Audiobook.formatted_duration] and [format_duration] agree on
    every positive duration; on a duration of zero the first says
    "Unknown" where the second says "00:00". *)
Theorem formatted_duration_agrees (duration : Q) :
  (duration == 0 ->
   formatted_duration duration = "Unknown"%string /\
   AudioUtils.format_duration duration = "00:00"%string) /\
  (0 < duration ->
   formatted_duration duration = AudioUtils.format_duration duration).
Proof.
  unfold formatted_duration, AudioUtils.format_duration. split.
  - intros Hz. assert (Hb : Qeq_bool duration 0 = true) by now apply Qeq_bool_iff.
    assert (Hle : Qle_bool duration 0 = true)
      by (apply Qle_bool_iff; rewrite Hz; apply Qle_refl).
    now rewrite Hb, Hle.
  - intros Hpos.
    assert (Hb : Qeq_bool duration 0 = false).
    { destruct (Qeq_bool duration 0) eqn:Hb; [|reflexivity].
      apply Qeq_bool_iff in Hb. rewrite Hb in Hpos. now apply Qlt_irrefl in Hpos. }
    assert (Hle : Qle_bool duration 0 = false).
    { destruct (Qle_bool duration 0) eqn:Hle; [|reflexivity].
      apply Qle_bool_iff in Hle. exfalso. apply (Qlt_not_le _ _ Hpos Hle). }
    now rewrite Hb, Hle.
Qed.

End Files.


Lemma formatted_duration_agrees_witness :
  0 < 3661 /\ formatted_duration 3661 = AudioUtils.format_duration 3661.
Proof.
  assert (Hpos : 0 < 3661) by reflexivity.
  split; [exact Hpos|]. exact (proj2 (formatted_duration_agrees 3661) Hpos).
Defined.

End LibraryFacts.

(** * The monitor thread against the main thread *)

Module ThreadFacts.
Import Core Run Gui Threads.
Import CoreFacts RunFacts GuiFacts.

Section Monitor.

Context {E : Type} `{Vlc E}.

Variable stem : string -> string.

Local Abbreviation screen := (PlayerScreen E).

(** What one statement of the monitor thread can do to the player. *)
Lemma tick_player_frame (a : AudioPlayer E) (ph : phase) (t : tick E) :
  let a' := fst (tick_player (a, ph) t) in
  is_loaded a' = is_loaded a /\
  is_paused a' = is_paused a /\
  duration a' = duration a /\
  stop_monitoring a' = stop_monitoring a /\
  monitor_thread a' = monitor_thread a /\
  (Core.is_playing a' = Core.is_playing a \/ Core.is_playing a' = false) /\
  (t <> Write -> current_position a' = current_position a).
Proof.
  destruct a as [fp ld pl pa cp du mp mt sm].
  destruct t, ph; cbn [tick_player fst]; open_comp;
    repeat match goal with
    | |- context [if ?b then _ else _] => destruct b
    | |- context [match get_state ?e with _ => _ end] => destruct (get_state e)
    end; cbn; repeat split; auto; intros Hx; try reflexivity; now elim Hx.
Qed.

Lemma ticks_player_frame (ts : list (tick E)) (a : AudioPlayer E) (ph : phase) :
  let a' := fst (ticks_player ts (a, ph)) in
  is_loaded a' = is_loaded a /\
  is_paused a' = is_paused a /\
  stop_monitoring a' = stop_monitoring a /\
  (Core.is_playing a = false -> Core.is_playing a' = false) /\
  (no_write ts = true -> current_position a' = current_position a).
Proof.
  revert a ph. induction ts as [|t ts IH]; intros a ph; cbv zeta.
  - cbn. repeat split; auto.
  - cbn [ticks_player fold_left].
    destruct (tick_player (a, ph) t) as [a1 ph1] eqn:Ht.
    pose proof (tick_player_frame a ph t) as Hf. rewrite Ht in Hf. cbn [fst] in Hf.
    destruct Hf as (Hl & Hp & _ & Hs & _ & Hpl & Hcp).
    specialize (IH a1 ph1). cbv zeta in IH. unfold ticks_player in IH.
    destruct IH as (Hl' & Hp' & Hs' & Hpl' & Hcp').
    rewrite Hl', Hp', Hs'. repeat split; auto.
    + intros Hoff. apply Hpl'. destruct Hpl as [->| ->]; auto.
    + cbn [no_write forallb]. intros Hnw. apply andb_prop in Hnw.
      destruct Hnw as [Ht0 Hts]. rewrite (Hcp' Hts). apply Hcp.
      intros ->. discriminate Ht0.
Qed.

(** The monitor thread touches nothing of the screen but its player. *)
Lemma ticks_screen (ts : list (tick E)) (st : threaded E) :
  ticks ts st =
    (set_audio_player (fst (ticks_player ts (audio_player (fst st), snd st))) (fst st),
     snd (ticks_player ts (audio_player (fst st), snd st))).
Proof.
  unfold ticks, ticks_player.
  revert st. induction ts as [|t ts IH]; intros [s ph].
  - cbn. destruct s; reflexivity.
  - cbn [fold_left]. rewrite IH.
    unfold tick_screen. cbn [fst snd].
    destruct (tick_player (audio_player s, ph) t) as [a1 ph1].
    cbn [fst snd]. destruct s; reflexivity.
Qed.

(** A sequence of four ticks from the test is an iteration of the loop. *)
Lemma iteration_in_four_ticks (a : AudioPlayer E) :
  monitor_thread a = true ->
  fst (ticks_player [Test; Read; Write; Check] (a, AtTest)) =
    snd (_monitor_playback_step a).
Proof.
  destruct a as [fp ld pl pa cp du mp mt sm]. cbn [monitor_thread]. intros ->.
  cbv [ticks_player fold_left tick_player _monitor_playback_step andb]. open_comp.
  destruct sm; cbn; [reflexivity|]. destruct pl; cbn; [|reflexivity].
  destruct (get_state mp) as [st|x]; [|reflexivity].
  destruct (State_eqb st Ended); reflexivity.
Qed.

(** The two halves of the restore callback are the callback. *)
Lemma restore_in_two_halves (s : screen) :
  fst (restore_seek s) = Return tt ->
  on_main restore_pause (on_main restore_seek (s, AtTest)) =
    (snd (run_callback restore_bookmark s), AtTest).
Proof.
  unfold on_main, restore_seek, restore_pause. cbn [fst snd run_callback].
  unfold run_restore_bookmark, bind, gets.
  destruct (last_position s) as [p|]; [|discriminate].
  destruct (player (set_position p) s) as [[u|x] s1]; cbn; [|discriminate].
  reflexivity.
Qed.

(** The engine calls behind a seek and a pause on a loaded player. *)
Lemma set_position_engine (x : Q) (a : AudioPlayer E) :
  is_loaded a = true ->
  returned (set_time (py_int (x * 1000)) (media_player a)) = true ->
  set_time (py_int (x * 1000)) (media_player a) =
    Return (media_player (snd (set_position x a))).
Proof.
  destruct a as [fp ld pl pa cp du mp mt sm]. cbn [is_loaded media_player].
  intros -> Hok. open_comp.
  destruct (set_time (py_int (x * 1000)) mp); [reflexivity | discriminate Hok].
Qed.

Lemma pause_engine (a : AudioPlayer E) :
  is_loaded a = true ->
  returned (mp_pause (media_player a)) = true ->
  mp_pause (media_player a) = Return (media_player (snd (pause a))) /\
  is_loaded (snd (pause a)) = true /\
  Core.is_playing (snd (pause a)) = false /\
  is_paused (snd (pause a)) = true /\
  current_position (snd (pause a)) = current_position a.
Proof.
  destruct a as [fp ld pl pa cp du mp mt sm]. cbn [is_loaded media_player].
  intros -> Hok. open_comp.
  destruct (mp_pause mp); [repeat split | discriminate Hok].
Qed.

(** Entering a book with a bookmark starts the engine on its media. *)
Lemma enter_engine (path : string) (e : E) (db : FileUtils.database) (p : Q) :
  obliging ->
  path_exists path e = true ->
  fst (FileUtils.get_position path db) = Return p ->
  0 < p ->
  exists e1 e2,
    set_media path e = Return e1 /\ mp_play e1 = Return e2 /\
    media_player (audio_player (enter stem path e db)) = e2.
Proof.
  intros Hob Hpe Hget Hpos.
  destruct (returned_inv _ (proj1 (Hob e) path)) as [e1 Hsm].
  destruct (load_file_new_player path e e1 Hpe Hsm) as [d Hload].
  destruct (returned_inv _ (proj1 (proj2 (Hob e1)))) as [e2 Hplay].
  exists e1, e2. split; [exact Hsm|]. split; [exact Hplay|].
  unfold enter, Gui.init. open_gui. rewrite Hload. cbv beta iota.
  destruct (FileUtils.get_position path db) as [r db']. cbn [fst] in Hget. subst r.
  cbv beta iota.
  destruct (Qlt_le_dec 0 p) as [_|Hle]; [|exfalso; apply (Qlt_not_le _ _ Hpos Hle)].
  cbv beta iota. open_comp. rewrite Hplay. reflexivity.
Qed.

(** Whatever happens around the callbacks keeps the book loaded and the
    bookmark in place. *)
Lemma passes_keep_bookmark (ms : list (moment E)) (st : threaded E) (p : Q) :
  obliging ->
  is_loaded (player_of st) = true /\ last_position (fst st) = Some p ->
  is_loaded (player_of (passes ms st)) = true /\
  last_position (fst (passes ms st)) = Some p.
Proof.
  intros Hob. revert st. induction ms as [|m ms IH]; intros [s ph] Hs; [exact Hs|].
  cbn [passes fold_left]. apply IH. clear IH.
  unfold player_of in *. cbn [fst] in Hs. destruct Hs as [Hl Hlp].
  destruct m as [t| |n]; cbn [pass fst snd].
  - unfold tick_screen. cbn [fst snd].
    pose proof (tick_player_frame (audio_player s) ph t) as Hf.
    destruct (tick_player (audio_player s, ph) t) as [a1 ph1]. cbn [fst] in *.
    destruct Hf as (Hl1 & _). destruct s. cbn in *. split; congruence.
  - exact (happen_keeps_bookmark s UpdateStep p Hob (conj Hl Hlp)).
  - exact (happen_keeps_bookmark s (Dispatch n) p Hob (conj Hl Hlp)).
Qed.

Lemma pause_returns (a : AudioPlayer E) : fst (pause a) = Return tt.
Proof.
  destruct a as [fp ld pl pa cp du mp mt sm]. open_comp. split_cases; reflexivity.
Qed.

Lemma set_position_returns (x : Q) (a : AudioPlayer E) :
  fst (set_position x a) = Return tt.
Proof.
  destruct a as [fp ld pl pa cp du mp mt sm]. open_comp. split_cases; reflexivity.
Qed.

(** The first half of the restore callback. *)
Lemma restore_seek_screen (s : screen) (p : Q) :
  last_position s = Some p ->
  audio_player (snd (restore_seek s)) = snd (set_position p (audio_player s)) /\
  last_position (snd (restore_seek s)) = Some p /\
  Gui.is_playing (snd (restore_seek s)) = Gui.is_playing s.
Proof.
  intros Hlp. unfold restore_seek, bind, gets. rewrite Hlp.
  unfold player. destruct (set_position p (audio_player s)) as [r a1].
  destruct s. cbn in *. repeat split. exact Hlp.
Qed.

(** The second half. *)
Lemma restore_pause_screen (s : screen) :
  audio_player (snd (restore_pause s)) = snd (pause (audio_player s)) /\
  Gui.is_playing (snd (restore_pause s)) = false.
Proof.
  unfold restore_pause, bind, modify, player.
  pose proof (pause_returns (audio_player s)) as Hr.
  destruct (pause (audio_player s)) as [r a1]. cbn [fst] in Hr. subst r.
  destruct s. cbn. split; reflexivity.
Qed.

Lemma ticks_screen_player (ts : list (tick E)) (st : threaded E) :
  player_of (ticks ts st) = fst (ticks_player ts (audio_player (fst st), snd st)) /\
  Gui.is_playing (fst (ticks ts st)) = Gui.is_playing (fst st) /\
  last_position (fst (ticks ts st)) = last_position (fst st).
Proof.
  rewrite ticks_screen. unfold player_of. cbn [fst].
  destruct st as [s ph]. destruct s. cbn. repeat split.
Qed.

(** Once monitoring is off, a monitor thread that is between two
    iterations stays there and stores nothing. *)
Lemma idle_monitor_stays_idle (ts : list (tick E)) (a : AudioPlayer E) :
  stop_monitoring a = true ->
  snd (ticks_player ts (a, AtTest)) = AtTest /\
  current_position (fst (ticks_player ts (a, AtTest))) = current_position a.
Proof.
  unfold ticks_player. revert a. induction ts as [|t ts IH]; intros a Hoff.
  - split; reflexivity.
  - cbn [fold_left].
    assert (Hstep : exists a1, tick_player (a, AtTest) t = (a1, AtTest) /\
                               stop_monitoring a1 = true /\
                               current_position a1 = current_position a).
    { destruct a as [fp ld pl pa cp du mp mt sm]. cbn [stop_monitoring] in Hoff.
      subst sm. destruct t; cbn [tick_player]; open_comp.
      - rewrite andb_false_r. eexists; repeat split.
      - eexists; repeat split.
      - eexists; repeat split.
      - eexists; repeat split.
      - eexists; repeat split. }
    destruct Hstep as (a1 & -> & Hoff1 & Hcp).
    destruct (IH a1 Hoff1) as [Hph Hcp1]. rewrite Hph, Hcp1. now split.
Qed.



End Monitor.

Lemma sim_keeps_time : @keeps_time Sim.engine _.
Proof.
  split.
  - intros ms e e' Hset. cbn in Hset. injection Hset as <-. reflexivity.
  - intros e e' Hp. cbn in Hp. injection Hp as <-. reflexivity.
Defined.




(** A monitor thread caught by [stop] with a sample in hand stores it
    after the reset: the position ends at the sample, not at zero. *)
Lemma stale_sample_after_stop :
  current_position (fst (stop_amid [Write; Check] Races.caught_by_stop)) = 480 / 1000 /\
  Core.is_playing (fst (stop_amid [Write; Check] Races.caught_by_stop)) = false.
Proof.
  split; reflexivity.
Qed.

End ThreadFacts.
